(** * sda-cli: helpers, command dispatch and the transfer pipeline contracts

    A shallow embedding of [helpers/helpers.go] and of the program's [main]
    package, together with the codec and planner contracts of the design
    document, and the properties proved about them. *)

From Stdlib Require Import ZArith List String Ascii Bool Lia.
From stdpp Require Import gmap strings list.

Open Scope Z_scope.

(** ** Go base types *)

(** A Go [error] is represented by its message ([err.Error()]); [None] is
    [nil]. *)
Definition error := string.

(** [int64] values are integers of the range below; arithmetic on them wraps
    around. *)
Definition int64_min : Z := - 2 ^ 63.
Definition int64_max : Z := 2 ^ 63 - 1.

Definition is_int64 (z : Z) : Prop := int64_min <= z <= int64_max.

Definition wrap64 (z : Z) : Z := (z + 2 ^ 63) mod 2 ^ 64 - 2 ^ 63.

Definition len {A} (l : list A) : Z := Z.of_nat (length l).

(** ** The reader under a [CustomReader]

    [CustomReader.Fp] is an [*os.File]; of the file only its [ReadAt] method
    is used by the code below, so the file is taken as that method: given the
    buffer [p] and the offset it returns the filled buffer, the number of
    bytes read and the error. *)
Module os.

Record File := { ReadAt : list Byte.byte -> Z -> list Byte.byte * Z * option error }.

(** What [io.ReaderAt] promises of every implementation: [0 <= n <= len(p)],
    and the buffer keeps its length. *)
Definition ReaderAt_contract (f : File) : Prop :=
  forall p off,
    0 <= snd (fst (ReadAt f p off)) <= len p /\
    length (fst (fst (ReadAt f p off))) = length p.

(** A regular file holding [data], read without faults: a negative offset
    is an error, a short read ends in [EOF]. *)
Definition regular (data : list Byte.byte) : File :=
  {| ReadAt := fun p off =>
       if off <? 0 then (p, 0, Some "negative offset"%string)
       else
         let got := take (length p) (drop (Z.to_nat off) data) in
         (got ++ drop (length got) p, len got,
          if len got <? len p then Some "EOF"%string else None) |}.

End os.

(** ** The progress bar

    [mpb.Bar] belongs to a library; the bar is represented by the calls made
    on it, most recent first. *)
Module mpb.

Inductive call :=
| SetTotal (total : Z) (complete : bool)
| SetCurrent (current : Z).

Definition Bar := list call.

End mpb.

(** ** [CustomReader]

    [Mux] guards the update of [Reads] and [SignMap]; the model takes the
    calls in the order in which their critical sections run, so the mutex
    itself carries no state. [SignMap] is a [map[int64]struct{}], that is a
    set of offsets. *)
Record CustomReader := {
  Fp : os.File;
  Size : Z;
  Reads : Z;
  Bar : mpb.Bar;
  SignMap : gset Z
}.

(** [func (r *CustomReader) ReadAt(p []byte, off int64) (int, error)]: the
    result is the filled buffer, [n], [err] and the reader after the call. *)
Definition ReadAt (r : CustomReader) (p : list Byte.byte) (off : Z)
  : list Byte.byte * Z * option error * CustomReader :=
  let '(p', n, err) := os.ReadAt (Fp r) p off in
  match err with
  | Some e => (p', n, Some e, r)
  | None =>
      let bar1 := mpb.SetTotal (Size r) false :: Bar r in
      if decide (off ∈ SignMap r) then
        let reads := wrap64 (Reads r + n) in
        (p', n, None,
         {| Fp := Fp r; Size := Size r; Reads := reads;
            Bar := mpb.SetCurrent reads :: bar1; SignMap := SignMap r |})
      else
        (p', n, None,
         {| Fp := Fp r; Size := Size r; Reads := Reads r;
            Bar := bar1; SignMap := {[off]} ∪ SignMap r |})
  end.

(** A sequence of [ReadAt] calls on one reader: each call gives the buffer
    and the offset. *)
Definition ReadAt_call : Type := list Byte.byte * Z.

Definition ReadAt_seq (r : CustomReader) (calls : list ReadAt_call) : CustomReader :=
  fold_left (fun r c => snd (ReadAt r (fst c) (snd c))) calls r.


Definition call_ok (fp : os.File) (c : ReadAt_call) : Prop :=
  snd (os.ReadAt fp (fst c) (snd c)) = None.


Definition sum_len (calls : list ReadAt_call) : Z :=
  foldr (fun c acc => len (fst c) + acc) 0 calls.




Definition buffer (size : nat) : list Byte.byte := replicate size Byte.x00.

(** A reader before its first call: nothing counted, no offset seen. *)
Definition fresh_reader (fp : os.File) (size : Z) : CustomReader :=
  {| Fp := fp; Size := size; Reads := 0; Bar := []; SignMap := ∅ |}.

(** ** Command-line arguments of the sub-commands *)
Module helpers.

(** The boolean flags [getPositional] knows. *)
Definition argList : list string :=
  ["-r"; "--r"; "--force-overwrite"; "-force-overwrite";
   "--force-unencrypted"; "-force-unencrypted"]%string.

(** An argument that [getPositional] takes as positional: not a known
    boolean flag, not empty, and not starting with a dash. *)
Definition is_positional (a : string) : Prop :=
  ~ In a argList /\
  exists c rest, a = String c rest /\ c <> "-"%char.

Definition starts_with_dash (a : string) : Prop :=
  exists rest, a = String "-" rest.

(** The rule of [getPositional], as its comments give it: a known boolean
    flag stays; any other argument that starts with a dash stays together
    with the argument after it, if there is one; every other argument is
    positional. [splits args positional kept] holds when the rule splits
    [args] into [positional] and [kept]. *)
Inductive splits : list string -> list string -> list string -> Prop :=
| splits_nil : splits [] [] []
| splits_boolean a args positional kept :
    In a argList ->
    splits args positional kept ->
    splits (a :: args) positional (a :: kept)
| splits_flag_value a v args positional kept :
    ~ In a argList -> starts_with_dash a ->
    splits args positional kept ->
    splits (a :: v :: args) positional (a :: v :: kept)
| splits_last_flag a :
    ~ In a argList -> starts_with_dash a ->
    splits [a] [] [a]
| splits_positional a args positional kept :
    is_positional a ->
    splits args positional kept ->
    splits (a :: args) (a :: positional) kept.

(** The loop of [getPositional] over the arguments from index [i] on: the
    result is the positional arguments and what stays in [args]. A boolean
    flag stays; any other argument that starts with a dash stays together
    with the argument after it; everything else is positional. [args[i][0]]
    panics on an empty argument: [None]. *)
Fixpoint getPositional_from (rest : list string) : option (list string * list string) :=
  match rest with
  | [] => Some ([], [])
  | a :: tl =>
      if In_dec string_dec a argList then
        match getPositional_from tl with
        | Some (positional, kept) => Some (positional, a :: kept)
        | None => None
        end
      else
        match a with
        | EmptyString => None
        | String c _ =>
            if Ascii.eqb c "-" then
              match tl with
              | [] => Some ([], [a])
              | v :: tl' =>
                  match getPositional_from tl' with
                  | Some (positional, kept) => Some (positional, a :: v :: kept)
                  | None => None
                  end
              end
            else
              match getPositional_from tl with
              | Some (positional, kept) => Some (a :: positional, kept)
              | None => None
              end
        end
  end.

(** [func getPositional(args []string) ([]string, []string)]: the loop
    starts at index 1. *)
Definition getPositional (args : list string) : option (list string * list string) :=
  match args with
  | [] => Some ([], [])
  | arg0 :: rest =>
      match getPositional_from rest with
      | Some (positional, kept) => Some (positional, arg0 :: kept)
      | None => None
      end
  end.

(** [func ParseArgs(args []string, argFlags *flag.FlagSet) error]; [Parse]
    is [argFlags.Parse]. The result is [None] when the function panics (an
    empty argument, or no argument at all for [args[1:]]). *)
Definition ParseArgs (Parse : list string -> option error) (args : list string)
  : option (option error) :=
  match getPositional args with
  | None => None
  | Some (pos, args) =>
      match args ++ pos with
      | [] => None
      | _ :: args1 => Some (Parse args1)
      end
  end.

End helpers.

(** ** The configuration file

    [Config] holds the values of the s3cmd file; the [ini] tag of each field
    is the key it is read from. [int64] and [int] fields are integers. *)
Record Config := {
  AccessKey : string;            (* access_key *)
  SecretKey : string;            (* secret_key *)
  AccessToken : string;          (* access_token *)
  HostBucket : string;           (* host_bucket *)
  HostBase : string;             (* host_base *)
  MultipartChunkSizeMb : Z;      (* multipart_chunk_size_mb *)
  GuessMimeType : bool;          (* guess_mime_type *)
  Encoding : string;             (* encoding *)
  CheckSslCertificate : bool;    (* check_ssl_certificate *)
  CheckSslHostname : bool;       (* check_ssl_hostname *)
  UseHTTPS : bool;               (* use_https *)
  SocketTimeout : Z;             (* socket_timeout *)
  HumanReadableSizes : bool;     (* human_readable_sizes *)
  PublicKey : string             (* public_key *)
}.

(** [&Config{}]: every field at its zero value. *)
Definition Config_zero : Config :=
  {| AccessKey := ""; SecretKey := ""; AccessToken := ""; HostBucket := "";
     HostBase := ""; MultipartChunkSizeMb := 0; GuessMimeType := false;
     Encoding := ""; CheckSslCertificate := false; CheckSslHostname := false;
     UseHTTPS := false; SocketTimeout := 0; HumanReadableSizes := false;
     PublicKey := "" |}.

Definition set_HostBase (c : Config) (v : string) : Config :=
  {| AccessKey := AccessKey c; SecretKey := SecretKey c;
     AccessToken := AccessToken c; HostBucket := HostBucket c;
     HostBase := v; MultipartChunkSizeMb := MultipartChunkSizeMb c;
     GuessMimeType := GuessMimeType c; Encoding := Encoding c;
     CheckSslCertificate := CheckSslCertificate c;
     CheckSslHostname := CheckSslHostname c; UseHTTPS := UseHTTPS c;
     SocketTimeout := SocketTimeout c;
     HumanReadableSizes := HumanReadableSizes c; PublicKey := PublicKey c |}.

Definition set_Encoding (c : Config) (v : string) : Config :=
  {| AccessKey := AccessKey c; SecretKey := SecretKey c;
     AccessToken := AccessToken c; HostBucket := HostBucket c;
     HostBase := HostBase c; MultipartChunkSizeMb := MultipartChunkSizeMb c;
     GuessMimeType := GuessMimeType c; Encoding := v;
     CheckSslCertificate := CheckSslCertificate c;
     CheckSslHostname := CheckSslHostname c; UseHTTPS := UseHTTPS c;
     SocketTimeout := SocketTimeout c;
     HumanReadableSizes := HumanReadableSizes c; PublicKey := PublicKey c |}.

Definition set_MultipartChunkSizeMb (c : Config) (v : Z) : Config :=
  {| AccessKey := AccessKey c; SecretKey := SecretKey c;
     AccessToken := AccessToken c; HostBucket := HostBucket c;
     HostBase := HostBase c; MultipartChunkSizeMb := v;
     GuessMimeType := GuessMimeType c; Encoding := Encoding c;
     CheckSslCertificate := CheckSslCertificate c;
     CheckSslHostname := CheckSslHostname c; UseHTTPS := UseHTTPS c;
     SocketTimeout := SocketTimeout c;
     HumanReadableSizes := HumanReadableSizes c; PublicKey := PublicKey c |}.

(** The [ini] library is taken by its interface. A loaded file lists its
    sections, [DEFAULT] always first, and maps a section into a [Config]:
    [MapTo] returns the struct as the section's keys leave it, and an
    error. *)
Module ini.

Record File := {
  named_sections : list string;
  MapTo : string -> Config -> Config * option error
}.

Definition SectionStrings (f : File) : list string :=
  "DEFAULT"%string :: named_sections f.

(** A file of one named section whose keys map to the fields of [c]. *)
Definition holding (c : Config) : File :=
  {| named_sections := ["s3"%string]; MapTo := fun _ _ => (c, None) |}.

End ini.

(** The section [LoadConfigFile] reads: the first named one if there is one,
    [DEFAULT] otherwise. *)
Definition iniSection (cfg : ini.File) : string :=
  if 1 <? len (ini.SectionStrings cfg)
  then nth 1 (ini.SectionStrings cfg) ""%string
  else nth 0 (ini.SectionStrings cfg) ""%string.

Definition is_empty (s : string) : bool := if string_dec s "" then true else false.

(** [func LoadConfigFile(path string)], returning a [Config] pointer and an
    error; [Load] is [ini.Load]. *)
Definition LoadConfigFile (Load : string -> ini.File + error) (path : string)
  : option Config * option error :=
  let config := Config_zero in
  match Load path with
  | inr err => (Some config, Some err)
  | inl cfg =>
      let '(config, err) := ini.MapTo cfg (iniSection cfg) config in
      match err with
      | Some err => (None, Some err)
      | None =>
          if is_empty (AccessKey config) || is_empty (AccessToken config) then
            (None, Some "failed to find credentials in configuration file"%string)
          else if is_empty (HostBase config) then
            (None, Some "failed to find endpoint in configuration file"%string)
          else
            let config :=
              if UseHTTPS config
              then set_HostBase config ("https://" +:+ HostBase config)
              else config in
            let config :=
              if is_empty (Encoding config)
              then set_Encoding config "UTF-8"
              else config in
            let config :=
              if MultipartChunkSizeMb config <=? 15
              then set_MultipartChunkSizeMb config 15
              else config in
            (Some config, None)
      end
  end.

(** The struct as the file's section leaves it, before [LoadConfigFile]
    checks and adjusts it; [None] when the file does not load or map. *)
Definition configured (Load : string -> ini.File + error) (path : string)
  : option Config :=
  match Load path with
  | inr _ => None
  | inl cfg =>
      match ini.MapTo cfg (iniSection cfg) Config_zero with
      | (config, None) => Some config
      | (_, Some _) => None
      end
  end.

(** ** Listing the files of a user

    The request [ListFiles] builds, in the records of the AWS SDK. *)
Module aws.

Record Credentials := {
  AccessKeyID : string;
  SecretAccessKey : string;
  SessionToken : string
}.

Record Config := {
  Region : string;
  Creds : Credentials;
  Endpoint : string;
  DisableSSL : bool;
  S3ForcePathStyle : bool
}.

End aws.

Module s3.

Record ListObjectsV2Input := {
  Bucket : string;
  Prefix : string
}.

End s3.

(** The session configuration and the input of [ListFiles]. *)
Definition ListFiles_session (config : Config) : aws.Config :=
  {| aws.Region := "us-west-2";
     aws.Creds :=
       {| aws.AccessKeyID := AccessKey config;
          aws.SecretAccessKey := AccessKey config;
          aws.SessionToken := AccessToken config |};
     aws.Endpoint := HostBase config;
     aws.DisableSSL := negb (UseHTTPS config);
     aws.S3ForcePathStyle := true |}.

Definition ListFiles_input (config : Config) (prefix : string) : s3.ListObjectsV2Input :=
  {| s3.Bucket := AccessKey config +:+ "/";
     s3.Prefix := (AccessKey config +:+ "/") +:+ prefix |}.

(** [func ListFiles(config Config, prefix string)]; [ListObjectsV2] is the
    call to the store, made by a client of the given session. *)
Definition ListFiles {Output : Type}
    (ListObjectsV2 : aws.Config -> s3.ListObjectsV2Input -> Output + error)
    (config : Config) (prefix : string) : option Output * option error :=
  match ListObjectsV2 (ListFiles_session config) (ListFiles_input config prefix) with
  | inr err => (None, Some ("failed to list objects, reason: " +:+ err))
  | inl result => (Some result, None)
  end.

(** ** The [main] package

    The sub-commands live in packages of their own; [main] sees each as a
    function from the arguments to an [error]. *)
Record Subcommands := {
  encrypt_Encrypt : list string -> option error;
  createKey_CreateKey : list string -> option error;
  decrypt_Decrypt : list string -> option error;
  download_Download : list string -> option error;
  upload_Upload : list string -> option error;
  datasetsize_DatasetSize : list string -> option error;
  list_List : list string -> option error;
  login_NewLogin : list string -> option error;
  version_Version : string -> option error
}.

Definition Version : string := "development".

(** What [main] and [Help] write to standard error: the help of a command
    (its text comes from the sub-command packages), or a formatted line. *)
Inductive printed :=
| HelpText (command : string)
| Text (s : string).

(** How the process ends as far as [main] decides it: what it wrote and the
    exit status. *)
Record Process := {
  stderr : list printed;
  exit_status : Z
}.

(** [ParseArgs] either leaves through [Help], which ends the process with
    status 1, or returns the command and [os.Args] without it. [os.Args] is
    the program name [prog] followed by [args]. *)
Inductive parsed :=
| Help (command : string)
| Command (command : string) (os_Args : list string).

Definition is_in (s : string) (l : list string) : bool :=
  if In_dec string_dec s l then true else false.

Definition ParseArgs (prog : string) (args : list string) : parsed :=
  match args with
  | [] => Help "help"
  | arg1 :: rest =>
      if is_in arg1 ["version"; "-v"; "--version"]%string then
        match rest with
        | [] => Command "version" (prog :: args)
        | _ :: _ => Help "version"
        end
      else
        let command := arg1 in
        let os_Args := prog :: rest in
        if is_in command ["-h"; "help"; "-help"; "--help"]%string then
          match rest with
          | subcommand :: _ => Help subcommand
          | [] => Help "help"
          end
        else if String.eqb command "list" then Command command os_Args
        else
          match rest with
          | [] => Help command
          | _ :: _ => Command command os_Args
          end
  end.

(** [func main()]. *)
Definition main (sub : Subcommands) (prog : string) (os_args : list string) : Process :=
  match ParseArgs prog os_args with
  | Help command => {| stderr := [HelpText command]; exit_status := 1 |}
  | Command command args =>
      let '(out, err) :=
        if String.eqb command "encrypt" then ([], encrypt_Encrypt sub args)
        else if is_in command ["createkey"; "createKey"; "create-key"]%string
        then ([], createKey_CreateKey sub args)
        else if String.eqb command "decrypt" then ([], decrypt_Decrypt sub args)
        else if String.eqb command "download" then ([], download_Download sub args)
        else if String.eqb command "upload" then ([], upload_Upload sub args)
        else if String.eqb command "datasetsize" then ([], datasetsize_DatasetSize sub args)
        else if String.eqb command "list" then ([], list_List sub args)
        else if String.eqb command "login" then ([], login_NewLogin sub args)
        else if String.eqb command "version" then ([], version_Version sub Version)
        else ([Text ("Unknown command: " +:+ command)], None) in
      match err with
      | Some err =>
          {| stderr := out ++ [Text ("Error: " +:+ err +:+ String "010" "")];
             exit_status := 0 |}
      | None => {| stderr := out; exit_status := 0 |}
      end
  end.

(** The words that [ParseArgs] or the switch of [main] treat in a way of
    their own. *)
Definition known_words : list string :=
  ["version"; "-v"; "--version"; "-h"; "help"; "-help"; "--help"; "list";
   "encrypt"; "createkey"; "createKey"; "create-key"; "decrypt"; "download";
   "upload"; "datasetsize"; "login"]%string.

(** What [main] does once a sub-command has returned [err]: it writes the
    error, if there is one, and returns, which ends the process with
    status 0. *)
Definition reported (err : option error) : Process :=
  match err with
  | None => {| stderr := []; exit_status := 0 |}
  | Some err =>
      {| stderr := [Text ("Error: " +:+ err +:+ String "010" "")];
         exit_status := 0 |}
  end.

(** Sub-commands for the examples: each returns an error that names it,
    [upload] returns [err]. *)
Definition upload_returning (err : option error) : Subcommands :=
  {| encrypt_Encrypt := fun _ => Some "encrypt"%string;
     createKey_CreateKey := fun _ => Some "createKey"%string;
     decrypt_Decrypt := fun _ => Some "decrypt"%string;
     download_Download := fun _ => Some "download"%string;
     upload_Upload := fun _ => err;
     datasetsize_DatasetSize := fun _ => Some "datasetsize"%string;
     list_List := fun _ => Some "list"%string;
     login_NewLogin := fun _ => Some "login"%string;
     version_Version := fun _ => Some "version"%string |}.

(** ** The chunk codec of the design document *)
Module ChunkCodec.

(** Modelled from the spec: the cryptographic primitives of the container
    format are missing from the sources (they belong to the crypt4gh
    library, which the [encrypt] and [decrypt] packages call); section 1
    of the design document fixes them and leaves them out of scope. They
    are taken as an interface: sealing and unsealing of the data key, the
    cipher of one block under the data key and the block's sequence index,
    the authentication tag, and the fixed block size. *)
Record Primitives := {
  DataKey : Type;
  PublicKey : Type;
  PrivateKey : Type;
  Sealed : Type;
  Tag : Type;
  keypair : PublicKey -> PrivateKey -> Prop;
  seal : PublicKey -> DataKey -> Sealed;
  unseal : PrivateKey -> Sealed -> option DataKey;
  encrypt : DataKey -> nat -> list Byte.byte -> list Byte.byte;
  decrypt : DataKey -> nat -> list Byte.byte -> list Byte.byte;
  tag : DataKey -> nat -> list Byte.byte -> Tag;
  Tag_eqb : Tag -> Tag -> bool;
  blockSize : nat
}.

(** Modelled from the spec: what the design document assumes of the
    primitives, which are missing from the sources. A sealed key opens
    with the private key of its recipient and with no other key to
    anything else; a block decrypts to its plaintext, possibly followed by
    padding; tags are compared for equality; the block size is positive. *)
Record Lawful (P : Primitives) : Prop := {
  unseal_seal : forall pub priv k,
    keypair P pub priv -> unseal P priv (seal P pub k) = Some k;
  unseal_sound : forall pub priv k k',
    unseal P priv (seal P pub k) = Some k' -> k' = k;
  decrypt_encrypt : forall k i m,
    take (length m) (decrypt P k i (encrypt P k i m)) = m;
  Tag_eqb_eq : forall t t', Tag_eqb P t t' = true <-> t = t';
  blockSize_pos : (0 < blockSize P)%nat
}.

Section Codec.

Context (P : Primitives).

(** Modelled from the spec: the [CipherBlock] of section 3, missing from
    the sources: sequence index, plaintext length, ciphertext bytes and
    authentication tag. *)
Record CipherBlock := {
  sequence_index : nat;
  plaintext_length : nat;
  ciphertext : list Byte.byte;
  authentication_tag : Tag P
}.

(** Modelled from the spec: the ciphertext stream of section 4.1, missing
    from the sources: a header that seals the data key once per
    recipient, then the blocks. *)
Record Stream := {
  header : list (Sealed P);
  blocks : list CipherBlock
}.

(** Modelled from the spec: the decoder's errors of sections 4.1 and 7,
    missing from the sources. *)
Inductive DecodeError := KeyUnsealError | IntegrityError.

(** Modelled from the spec: what a decoder hands to its caller (missing
    from the sources): the plaintext bytes emitted, and the error it
    failed with, if any. *)
Record Decoded := {
  emitted : list Byte.byte;
  failure : option DecodeError
}.

(** Modelled from the spec: the fixed block-size windows of the encoder
    (section 4.1), missing from the sources. The plaintext is cut from
    the front; the final window may be shorter, and an empty plaintext
    has no window. [fuel] bounds the number of windows. *)
Fixpoint windows_from (fuel : nat) (x : list Byte.byte) : list (list Byte.byte) :=
  match fuel with
  | O => []
  | S fuel' =>
      match x with
      | [] => []
      | _ :: _ => take (blockSize P) x :: windows_from fuel' (drop (blockSize P) x)
      end
  end.

(** Modelled from the spec: the windows of a whole plaintext (section 4.1),
    missing from the sources; its length is fuel enough. *)
Definition windows (x : list Byte.byte) : list (list Byte.byte) :=
  windows_from (length x) x.

(** Modelled from the spec: the encoder of section 4.1, missing from the
    sources: each window is encrypted under the data key, gets its tag
    and is emitted with its sequence index, counted from [i]. *)
Fixpoint encode_blocks (k : DataKey P) (i : nat) (ws : list (list Byte.byte))
  : list CipherBlock :=
  match ws with
  | [] => []
  | w :: ws' =>
      let c := encrypt P k i w in
      {| sequence_index := i; plaintext_length := length w;
         ciphertext := c; authentication_tag := tag P k i c |}
      :: encode_blocks k (S i) ws'
  end.

(** Modelled from the spec: [openEncoder] of section 4.1, missing from
    the sources, run to the end of the plaintext. *)
Definition encode (recipients : list (PublicKey P)) (k : DataKey P)
    (x : list Byte.byte) : Stream :=
  {| header := map (fun pub => seal P pub k) recipients;
     blocks := encode_blocks k 0 (windows x) |}.

(** Modelled from the spec: the header step of the decoder (section 4.1),
    missing from the sources: the first recipient entry that the private
    key unseals gives the data key. *)
Fixpoint unseal_any (priv : PrivateKey P) (h : list (Sealed P)) : option (DataKey P) :=
  match h with
  | [] => None
  | e :: h' =>
      match unseal P priv e with
      | Some k => Some k
      | None => unseal_any priv h'
      end
  end.

(** Modelled from the spec: the check of one block by the decoder
    (sections 3 and 4.1), missing from the sources: the block must carry
    the next sequence index and its tag must verify. *)
Definition verifies (k : DataKey P) (i : nat) (b : CipherBlock) : bool :=
  Nat.eqb (sequence_index b) i
  && Tag_eqb P (authentication_tag b) (tag P k i (ciphertext b)).

(** Modelled from the spec: the block loop of the decoder (section 4.1),
    missing from the sources: blocks are processed in order from index
    [i]; the plaintext is collected, and a block that fails its check
    ends the loop with no plaintext at all. *)
Fixpoint decode_blocks (k : DataKey P) (i : nat) (bs : list CipherBlock)
  : option (list Byte.byte) :=
  match bs with
  | [] => Some []
  | b :: bs' =>
      if verifies k i b then
        match decode_blocks k (S i) bs' with
        | Some rest =>
            Some (take (plaintext_length b) (decrypt P k i (ciphertext b)) ++ rest)
        | None => None
        end
      else None
  end.

(** Modelled from the spec: [openDecoder] of section 4.1, missing from
    the sources, run to the end of the stream: [KeyUnsealError] when no
    recipient entry opens, [IntegrityError] with nothing emitted when a
    block fails, the plaintext otherwise. *)
Definition decode (priv : PrivateKey P) (s : Stream) : Decoded :=
  match unseal_any priv (header s) with
  | None => {| emitted := []; failure := Some KeyUnsealError |}
  | Some k =>
      match decode_blocks k 0 (blocks s) with
      | None => {| emitted := []; failure := Some IntegrityError |}
      | Some x => {| emitted := x; failure := None |}
      end
  end.

(** Modelled from the spec: tampering with the tag of one block (section 8),
    missing from the sources: the stream with the tag of block [i] replaced
    by [t]. *)
Definition set_tag (t : Tag P) (b : CipherBlock) : CipherBlock :=
  {| sequence_index := sequence_index b;
     plaintext_length := plaintext_length b;
     ciphertext := ciphertext b;
     authentication_tag := t |}.

(** Modelled from the spec: see [set_tag]. *)
Definition tamper_tag (i : nat) (t : Tag P) (s : Stream) : Stream :=
  {| header := header s; blocks := alter (set_tag t) i (blocks s) |}.

End Codec.

(** Primitives to run the codec on: keys are numbers, a key is sealed by
    pairing it with the recipient, a block is encrypted by reversing it
    and adding one byte of padding, and the tag adds up the key, the index
    and the length. Blocks hold four bytes. *)
Definition toy : Primitives :=
  {| DataKey := nat; PublicKey := nat; PrivateKey := nat;
     Sealed := nat * nat; Tag := nat;
     keypair := fun pub priv => pub = priv;
     seal := fun pub k => (pub, k);
     unseal := fun priv e => if Nat.eqb (fst e) priv then Some (snd e) else None;
     encrypt := fun _ _ m => rev m ++ [Byte.xff];
     decrypt := fun _ _ c => rev (removelast c);
     tag := fun k i c => (k + i + length c)%nat;
     Tag_eqb := Nat.eqb;
     blockSize := 4 |}.

Definition five_bytes : list Byte.byte :=
  [Byte.x61; Byte.x62; Byte.x63; Byte.x64; Byte.x65].

End ChunkCodec.

(** ** The part planner of the design document *)
Module PartPlanner.

(** Modelled from the spec: a part of section 3, missing from the sources
    (parts are cut by the uploader of the AWS SDK, which the [upload]
    package configures): its 1-based number and its byte range within the
    ciphertext stream, as offset and length. *)
Record PartRange := {
  part_number : N;
  range_offset : N;
  range_length : N
}.

(** Modelled from the spec: the error of the planner (sections 4.2 and 7),
    missing from the sources. *)
Inductive PlanningError := CannotCoverSize.

(** Modelled from the spec: the rounded-up quotient [ceil(a / b)] of section
    4.2, missing from the sources. *)
Definition ceil_div (a b : N) : N := ((a + b - 1) / b)%N.

(** Modelled from the spec: rounding up to the next multiple of [b] (section
    4.2), missing from the sources. *)
Definition round_up (x b : N) : N := (ceil_div x b * b)%N.

(** Modelled from the spec: the part size of section 4.2, missing from the
    sources: at least the configured minimum, large enough for the count
    of parts to stay within [maxPartCount], and rounded up to the next
    multiple of the fixed block size. *)
Definition part_size (blockSize totalCipherBytes minPartSize maxPartCount : N) : N :=
  round_up (N.max minPartSize (ceil_div totalCipherBytes maxPartCount)) blockSize.

(** Modelled from the spec: [plan] of section 4.2, missing from the
    sources. [blockSize] is the fixed block size and [maxPartSize] the
    largest part the service takes. The plan is refused when
    [maxPartCount] parts of [maxPartSize] bytes cannot cover the size;
    otherwise the stream is cut into parts of the part size, the last one
    taking what is left. *)
Definition plan (blockSize maxPartSize : N)
    (totalCipherBytes minPartSize maxPartCount : N)
  : PlanningError + list PartRange :=
  if (maxPartCount * maxPartSize <? totalCipherBytes)%N then inl CannotCoverSize
  else
    let size := part_size blockSize totalCipherBytes minPartSize maxPartCount in
    inr (map (fun i : nat =>
                {| part_number := N.of_nat i + 1;
                   range_offset := N.of_nat i * size;
                   range_length := N.min size (totalCipherBytes - N.of_nat i * size) |})
             (seq 0 (N.to_nat (ceil_div totalCipherBytes size)))).

Definition KB : N := 1024.
Definition MB : N := 1024 * 1024.

End PartPlanner.

(** Example configurations: the values of a session file that names its
    endpoint with the scheme and does not set [use_https]; and the ones of a
    file with the three required keys only. *)
Definition scheme_in_host_base : Config :=
  {| AccessKey := "user"; SecretKey := ""; AccessToken := "token";
     HostBucket := ""; HostBase := "https://s3.example.org";
     MultipartChunkSizeMb := 0; GuessMimeType := false; Encoding := "";
     CheckSslCertificate := false; CheckSslHostname := false;
     UseHTTPS := false; SocketTimeout := 0; HumanReadableSizes := false;
     PublicKey := "" |}.

Definition required_keys_only : Config :=
  {| AccessKey := "user"; SecretKey := ""; AccessToken := "token";
     HostBucket := ""; HostBase := "s3.example.org";
     MultipartChunkSizeMb := 0; GuessMimeType := false; Encoding := "";
     CheckSslCertificate := false; CheckSslHostname := false;
     UseHTTPS := true; SocketTimeout := 0; HumanReadableSizes := false;
     PublicKey := "" |}.

(** A file of four bytes and the call that reads all of it, for the
    examples below. *)
Definition four_bytes : os.File :=
  os.regular [Byte.x01; Byte.x02; Byte.x03; Byte.x04].

Definition whole_file : ReadAt_call := (buffer 4, 0).

(** ** The rest of [helpers.go]

    The functions of Go's [strings] package that the helpers call, on byte
    strings; [Split] for a separator of one byte, which is how the code
    uses it. *)
Module gostrings.

Definition HasPrefix (s prefix : string) : bool := String.prefix prefix s.

Fixpoint Contains (s substr : string) : bool :=
  String.prefix substr s
  || match s with
     | EmptyString => false
     | String _ s' => Contains s' substr
     end.

Fixpoint Split (s : string) (sep : ascii) : list string :=
  match s with
  | EmptyString => [EmptyString]
  | String a s' =>
      if Ascii.eqb a sep then EmptyString :: Split s' sep
      else
        match Split s' sep with
        | l :: ls => String a l :: ls
        | [] => [String a EmptyString]
        end
  end.

Definition Join (elems : list string) (sep : string) : string :=
  String.concat sep elems.

Definition newline : ascii := "010"%char.

End gostrings.


(** [func FormatSubcommandUsage(usageString string) string]. [Sprintf] is
    [fmt.Sprintf] with one operand, [TrimSpace] is [strings.TrimSpace] and
    [arg0] is [os.Args[0]]; the final [Sprintf] has the format
    [\n%s\n\n    %s\n\n] and two strings, that is a concatenation. *)
Definition FormatSubcommandUsage
    (Sprintf : string -> string -> string) (TrimSpace : string -> string)
    (arg0 : string) (usageString : string) : string :=
  if negb (gostrings.Contains usageString "%s")
     && negb (gostrings.Contains usageString "%v")
  then usageString
  else
    let usageString := Sprintf usageString arg0 in
    let lines := gostrings.Split (TrimSpace usageString) gostrings.newline in
    if (len lines <? 2) || negb (gostrings.HasPrefix (nth 0 lines ""%string) "USAGE:")
    then usageString
    else
      let usage := nth 0 lines ""%string in
      String gostrings.newline (gostrings.Join (drop 2 lines) (String gostrings.newline ""))
      +:+ String gostrings.newline (String gostrings.newline "    ")
      +:+ usage
      +:+ String gostrings.newline (String gostrings.newline "").

(** The error response of the S3 server. *)
Record XMLerrorResponse := {
  Code : string;
  Message : string;
  Resource : string
}.

(** [fmt.Sprintf("%+v", xmlErrorResponse)]: the fields with their names. *)
Definition format_XMLerrorResponse (x : XMLerrorResponse) : string :=
  "{Code:" +:+ Code x +:+ " Message:" +:+ Message x
  +:+ " Resource:" +:+ Resource x +:+ "}".

(** [func ParseS3ErrorResponse(respBody io.Reader) (string, error)].
    [respBody] is what [io.ReadAll] gives for the reader, and [Unmarshal]
    is [xml.Unmarshal] into an [XMLerrorResponse]. *)
Definition ParseS3ErrorResponse
    (Unmarshal : string -> XMLerrorResponse + error)
    (respBody : string + error) : string * option error :=
  match respBody with
  | inr err =>
      (""%string, Some ("failed to read from response body, reason: " +:+ err))
  | inl respMsg =>
      if negb (gostrings.Contains respMsg "xml version") then
        (""%string, Some "cannot parse response body, reason: not xml"%string)
      else
        match Unmarshal respMsg with
        | inr err =>
            (""%string, Some ("failed to unmarshal xml response, reason: " +:+ err))
        | inl xmlErrorResponse =>
            (format_XMLerrorResponse xmlErrorResponse, None)
        end
  end.

(** The file system as the helpers use it: [os.Stat], [os.Open] with the
    [Read] method of the opened file, and [filepath.Clean]. *)
Module filesystem.

Record FileInfo := { IsDir : bool }.

Record Opened := { Read : list Byte.byte -> list Byte.byte * Z * option error }.

Record OS := {
  Stat : string -> FileInfo + error;
  Open : string -> Opened + error;
  Clean : string -> string
}.

(** A file system of directories and regular files, which hold bytes and
    may or may not be opened for reading. [Read] on a regular file reads
    from its start; at the end of the file it returns [EOF]. *)
Inductive node :=
| Directory
| Regular (data : list Byte.byte) (may_read : bool).

Definition read_start (data : list Byte.byte) : Opened :=
  {| Read := fun p =>
       match p with
       | [] => (p, 0, None)
       | _ :: _ =>
           match data with
           | [] => (p, 0, Some "EOF"%string)
           | _ :: _ =>
               (take (length p) data ++ drop (length (take (length p) data)) p,
                len (take (length p) data), None)
           end
       end |}.

Definition of_nodes (clean : string -> string) (nodes : string -> option node) : OS :=
  {| Stat := fun name =>
       match nodes name with
       | None => inr "no such file or directory"%string
       | Some Directory => inl {| IsDir := true |}
       | Some (Regular _ _) => inl {| IsDir := false |}
       end;
     Open := fun name =>
       match nodes name with
       | None => inr "no such file or directory"%string
       | Some Directory =>
           inl {| Read := fun p => (p, 0, Some "is a directory"%string) |}
       | Some (Regular data true) => inl (read_start data)
       | Some (Regular _ false) => inr "permission denied"%string
       end;
     Clean := clean |}.

End filesystem.

(** [func FileExists(filename string) bool]. *)
Definition FileExists (os : filesystem.OS) (filename : string) : bool :=
  match filesystem.Stat os filename with
  | inl _ => true
  | inr _ => false
  end.

(** [func FileIsReadable(filename string) bool]: the file is opened and one
    byte is read from it. *)
Definition FileIsReadable (os : filesystem.OS) (filename : string) : bool :=
  match filesystem.Stat os filename with
  | inr _ => false
  | inl fileInfo =>
      if filesystem.IsDir fileInfo then false
      else
        match filesystem.Open os (filesystem.Clean os filename) with
        | inr _ => false
        | inl inFile =>
            let test := buffer 1 in
            match snd (filesystem.Read inFile test) with
            | None => true
            | Some _ => false
            end
        end
  end.

(** [func GetAuth(path string)], returning a [Config] pointer and an error:
    the configuration file if one is named, the session file otherwise. *)
Definition GetAuth (os : filesystem.OS) (Load : string -> ini.File + error)
    (path : string) : option Config * option error :=
  if negb (is_empty path) then LoadConfigFile Load path
  else if FileExists os ".sda-cli-session" then LoadConfigFile Load ".sda-cli-session"
  else (None, Some "failed to read the configuration file"%string).

(** What [GetPublicKey] does besides returning: a line on standard output,
    the key file opened (and created if need be) for writing, and the key
    written to it. *)
Inductive effect :=
| Println (line : string)
| OpenFile_WRONLY_CREATE (name : string)
| WriteCrypt4GHX25519PublicKey (name : string) (publicKeyData : list Byte.byte).

(** [var publicKeyData [32]byte; copy(publicKeyData[:], b)]. *)
Definition copy32 (b : list Byte.byte) : list Byte.byte :=
  take 32 b ++ replicate (32 - length (take 32 b)) Byte.x00.

(** [func GetPublicKey() (string, error)]. [OpenFile] and [WriteKey] say
    whether opening the key file and writing the key fail. The result comes
    with the effects in the order in which they happen. A nil configuration
    without an error would be dereferenced by the code; [LoadConfigFile]
    never returns one, and the model returns nothing for it. *)
Definition GetPublicKey (os : filesystem.OS) (Load : string -> ini.File + error)
    (OpenFile : string -> option error)
    (WriteKey : string -> list Byte.byte -> option error)
  : string * option error * list effect :=
  if negb (FileExists os ".sda-cli-session") then
    (""%string, Some "configuration file (.sda-cli-session) not found"%string, [])
  else
    let e1 :=
      if FileExists os ".sda-cli-session" then
        match filesystem.Open os ".sda-cli-session" with
        | inr _ => [Println "could not read file: <nil>"]
        | inl _ => []
        end
      else [] in
    match LoadConfigFile Load ".sda-cli-session" with
    | (_, Some err) =>
        (""%string, Some ("failed to load configuration file: " +:+ err), e1)
    | (None, None) => (""%string, None, e1)
    | (Some config, None) =>
        if is_empty (PublicKey config) then
          (""%string, Some "public key not found in the configuration"%string, e1)
        else
          let publicKeyData := copy32 (list_byte_of_string (PublicKey config)) in
          let name := filesystem.Clean os "key-from-oidc.pub.pem" in
          let e2 := e1 ++ [OpenFile_WRONLY_CREATE name] in
          match OpenFile name with
          | Some err =>
              (""%string,
               Some ("failed to open or create the public key file: " +:+ err), e2)
          | None =>
              let e3 := e2 ++ [WriteCrypt4GHX25519PublicKey name publicKeyData] in
              match WriteKey name publicKeyData with
              | Some err =>
                  (""%string, Some ("failed to write the public key data: " +:+ err), e3)
              | None => ("key-from-oidc.pub.pem"%string, None, e3)
              end
          end
    end.

(** A string without a line break, that is one line of a text. *)
Definition one_line (l : string) : Prop :=
  gostrings.Contains l (String gostrings.newline "") = false.

(** What [fmt.Sprintf] and [strings.TrimSpace] give for the usage text of
    the examples below: the program name put in, nothing to trim. *)
Definition example_usage : string :=
  "USAGE: %s module <args>" +:+ String gostrings.newline (String gostrings.newline "")
  +:+ "module: this module does all the fancies stuff".

Definition example_Sprintf (format a : string) : string :=
  "USAGE: " +:+ a +:+ " module <args>"
  +:+ String gostrings.newline (String gostrings.newline "")
  +:+ "module: this module does all the fancies stuff".

(** ** The rest of the [main] package *)

(** The keys of the [Commands] map, which [Help] looks a command up in. *)
Definition Commands : list string :=
  ["encrypt"; "createKey"; "decrypt"; "download"; "upload"; "datasetsize";
   "list"; "login"; "version"]%string.

Definition isLegal (command : string) : bool := is_in command Commands.

(** ** Observations on a [CustomReader] *)

(** The calls of a sequence whose read of the file succeeds. *)
Definition successful (fp : os.File) (calls : list ReadAt_call) : list ReadAt_call :=
  filter (fun c => snd (os.ReadAt fp (fst c) (snd c)) = None) calls.

(** The value of the most recent [SetCurrent] on a bar, if there is one. *)
Fixpoint bar_current (b : mpb.Bar) : option Z :=
  match b with
  | [] => None
  | mpb.SetCurrent v :: _ => Some v
  | mpb.SetTotal _ _ :: b' => bar_current b'
  end.

Definition is_SetTotal (size : Z) (c : mpb.call) : Prop :=
  match c with
  | mpb.SetTotal total complete => total = size /\ complete = false
  | mpb.SetCurrent _ => True
  end.

(** A reader two bytes short of the largest [int64], that has seen
    offset 0. *)
Definition almost_full_reader : CustomReader :=
  {| Fp := four_bytes; Size := 4; Reads := int64_max - 1; Bar := [];
     SignMap := {[0]} |}.

(** A session: the file [.sda-cli-session] exists and holds, besides the
    required keys, a public key of three bytes. *)
Definition session_os : filesystem.OS :=
  filesystem.of_nodes (fun p => p)
    (fun p => if String.eqb p ".sda-cli-session"
              then Some (filesystem.Regular [Byte.x5b] true)
              else None).

Definition session_config : Config :=
  {| AccessKey := "user"; SecretKey := ""; AccessToken := "token";
     HostBucket := ""; HostBase := "s3.example.org";
     MultipartChunkSizeMb := 0; GuessMimeType := false; Encoding := "";
     CheckSslCertificate := false; CheckSslHostname := false;
     UseHTTPS := true; SocketTimeout := 0; HumanReadableSizes := false;
     PublicKey := "key" |}.

(** * Properties *)

(** ** [int64] arithmetic *)

Lemma wrap64_id z : is_int64 z -> wrap64 z = z.
Proof.
  unfold is_int64, int64_min, int64_max, wrap64. intros Hz.
  rewrite Z.mod_small; lia.
Qed.

Lemma wrap64_is_int64 z : is_int64 (wrap64 z).
Proof.
  unfold is_int64, int64_min, int64_max, wrap64.
  pose proof (Z.mod_pos_bound (z + 2 ^ 63) (2 ^ 64)). lia.
Qed.


(** ** One [ReadAt] call *)

Lemma ReadAt_error r p off e :
  snd (os.ReadAt (Fp r) p off) = Some e -> snd (ReadAt r p off) = r.
Proof.
  unfold ReadAt. destruct (os.ReadAt (Fp r) p off) as [[p' n] err]; simpl.
  intros ->. reflexivity.
Qed.



Lemma ReadAt_Fp r p off : Fp (snd (ReadAt r p off)) = Fp r.
Proof.
  unfold ReadAt. destruct (os.ReadAt (Fp r) p off) as [[p' n] [e|]]; simpl; [done|].
  destruct (decide (off ∈ SignMap r)); done.
Qed.

Lemma ReadAt_Size r p off : Size (snd (ReadAt r p off)) = Size r.
Proof.
  unfold ReadAt. destruct (os.ReadAt (Fp r) p off) as [[p' n] [e|]]; simpl; [done|].
  destruct (decide (off ∈ SignMap r)); done.
Qed.

Lemma ReadAt_Reads_int64 r p off :
  is_int64 (Reads r) -> is_int64 (Reads (snd (ReadAt r p off))).
Proof.
  unfold ReadAt. destruct (os.ReadAt (Fp r) p off) as [[p' n] [e|]]; simpl; [done|].
  destruct (decide (off ∈ SignMap r)); simpl; [|done].
  intros _. apply wrap64_is_int64.
Qed.

Lemma ReadAt_seq_cons r c calls :
  ReadAt_seq r (c :: calls) = ReadAt_seq (snd (ReadAt r (fst c) (snd c))) calls.
Proof. reflexivity. Qed.

Lemma ReadAt_seq_app r calls1 calls2 :
  ReadAt_seq r (calls1 ++ calls2) = ReadAt_seq (ReadAt_seq r calls1) calls2.
Proof. apply fold_left_app. Qed.

(** ** Sequences of calls *)




Lemma sum_len_app l1 l2 : sum_len (l1 ++ l2) = sum_len l1 + sum_len l2.
Proof. induction l1 as [|c l1 IH]; simpl; [done|]. rewrite IH. lia. Qed.

Lemma sum_len_nonneg l : 0 <= sum_len l.
Proof. induction l as [|c l IH]; simpl; unfold len; lia. Qed.





Lemma ReadAt_seq_Fp r calls : Fp (ReadAt_seq r calls) = Fp r.
Proof.
  revert r. induction calls as [|c calls IH]; intros r; [done|].
  rewrite ReadAt_seq_cons, IH. apply ReadAt_Fp.
Qed.


Lemma ReadAt_seq_Reads_int64 r calls :
  is_int64 (Reads r) -> is_int64 (Reads (ReadAt_seq r calls)).
Proof.
  revert r. induction calls as [|c calls IH]; intros r Hr; [done|].
  rewrite ReadAt_seq_cons. by apply IH, ReadAt_Reads_int64.
Qed.




(** The bound on [Reads] along a sequence of calls that cannot overflow. *)
Lemma ReadAt_Reads_bounds r p off :
  os.ReaderAt_contract (Fp r) -> is_int64 (Reads r) ->
  Reads r + len p <= int64_max ->
  Reads r <= Reads (snd (ReadAt r p off)) <= Reads r + len p.
Proof.
  intros Hct Hr Hmax. destruct (Hct p off) as [Hn _].
  unfold ReadAt. destruct (os.ReadAt (Fp r) p off) as [[p' n] [e|]]; simpl in *.
  - unfold len. lia.
  - destruct (decide (off ∈ SignMap r)); simpl; [|unfold len; lia].
    rewrite wrap64_id; [lia|]. unfold is_int64 in *. lia.
Qed.

Lemma ReadAt_seq_Reads_bounds r calls :
  os.ReaderAt_contract (Fp r) -> is_int64 (Reads r) ->
  Reads r + sum_len calls <= int64_max ->
  Reads r <= Reads (ReadAt_seq r calls) <= Reads r + sum_len calls.
Proof.
  revert r. induction calls as [|[p off] calls IH]; intros r Hct Hr Hmax.
  - simpl. lia.
  - rewrite ReadAt_seq_cons. simpl fst; simpl snd. simpl in Hmax.
    pose proof (sum_len_nonneg calls).
    assert (Reads r <= Reads (snd (ReadAt r p off)) <= Reads r + len p) as Hstep.
    { apply ReadAt_Reads_bounds; [done..|lia]. }
    specialize (IH (snd (ReadAt r p off))).
    rewrite ReadAt_Fp in IH. specialize (IH Hct (ReadAt_Reads_int64 _ _ _ Hr)).
    simpl. lia.
Qed.

Lemma regular_contract data : os.ReaderAt_contract (os.regular data).
Proof.
  intros p off. unfold os.regular, len; simpl.
  destruct (off <? 0); simpl; [lia|].
  rewrite length_app, length_drop, !length_take, length_drop. lia.
Qed.

(** ** The progress counter *)




(** C5 (as amended). [Reads] does not decrease as long as it cannot
    overflow: along every sequence of [ReadAt] calls on a reader whose file
    honours [io.ReaderAt], whose [Reads] is an [int64] and stays, with the
    buffer lengths of all the calls added, at most the largest [int64],
    [Reads] after a call is at least [Reads] before it. *)
Theorem ReadAt_Reads_nondecreasing :
  forall (r : CustomReader) (pre : list ReadAt_call) (c : ReadAt_call)
         (post : list ReadAt_call),
    os.ReaderAt_contract (Fp r) ->
    is_int64 (Reads r) ->
    Reads r + sum_len (pre ++ c :: post) <= int64_max ->
    Reads (ReadAt_seq r pre) <= Reads (ReadAt_seq r (pre ++ [c])).
Proof.
  intros r pre c post Hct Hr Hmax.
  rewrite ReadAt_seq_app. simpl.
  rewrite sum_len_app in Hmax. simpl in Hmax.
  pose proof (sum_len_nonneg post).
  assert (Reads r <= Reads (ReadAt_seq r pre) <= Reads r + sum_len pre) as Hpre.
  { apply ReadAt_seq_Reads_bounds; [done..|]. unfold len in *. lia. }
  apply ReadAt_Reads_bounds.
  - by rewrite ReadAt_seq_Fp.
  - by apply ReadAt_seq_Reads_int64.
  - lia.
Qed.

Lemma ReadAt_Reads_nondecreasing_witness :
  Reads (ReadAt_seq (fresh_reader four_bytes 4) [whole_file])
  <= Reads (ReadAt_seq (fresh_reader four_bytes 4) ([whole_file] ++ [whole_file])).
Proof.
  apply (ReadAt_Reads_nondecreasing (fresh_reader four_bytes 4)
           [whole_file] whole_file [whole_file]).
  - apply regular_contract.
  - unfold is_int64, int64_min, int64_max. simpl. lia.
  - vm_compute. discriminate.
Defined.

(** C5 (as stated) fails: on a reader two bytes short of the largest
    [int64] a successful second read of four bytes at offset 0 wraps [Reads]
    around, from [2^63 - 2] to [-(2^63 - 2)]. *)
Lemma ReadAt_Reads_overflow_counterexample :
  call_ok (Fp almost_full_reader) whole_file /\
  Reads almost_full_reader = 9223372036854775806 /\
  Reads (ReadAt_seq almost_full_reader [whole_file]) = -9223372036854775806 /\
  Reads (ReadAt_seq almost_full_reader [whole_file]) < Reads almost_full_reader.
Proof. repeat split; vm_compute; reflexivity. Qed.

(** ** The configuration file *)

Lemma is_empty_true s : is_empty s = true <-> s = ""%string.
Proof. unfold is_empty. destruct (string_dec s ""); split; congruence. Qed.

Lemma is_empty_false s : is_empty s = false <-> s <> ""%string.
Proof. unfold is_empty. destruct (string_dec s ""); split; congruence. Qed.

(** [LoadConfigFile] on a file that loads and maps to [m]. *)
Lemma LoadConfigFile_configured Load path m :
  configured Load path = Some m ->
  LoadConfigFile Load path =
    if is_empty (AccessKey m) || is_empty (AccessToken m) then
      (None, Some "failed to find credentials in configuration file"%string)
    else if is_empty (HostBase m) then
      (None, Some "failed to find endpoint in configuration file"%string)
    else
      let c1 := if UseHTTPS m then set_HostBase m ("https://" +:+ HostBase m) else m in
      let c2 := if is_empty (Encoding c1) then set_Encoding c1 "UTF-8" else c1 in
      let c3 := if MultipartChunkSizeMb c2 <=? 15
                then set_MultipartChunkSizeMb c2 15 else c2 in
      (Some c3, None).
Proof.
  unfold configured, LoadConfigFile.
  destruct (Load path) as [cfg|e]; [|discriminate].
  destruct (ini.MapTo cfg (iniSection cfg) Config_zero) as [config [e|]]; [discriminate|].
  intros [= ->]. reflexivity.
Qed.

Lemma LoadConfigFile_success_configured Load path c :
  LoadConfigFile Load path = (Some c, None) ->
  exists m, configured Load path = Some m.
Proof.
  unfold configured, LoadConfigFile.
  destruct (Load path) as [cfg|e]; [|discriminate].
  destruct (ini.MapTo cfg (iniSection cfg) Config_zero) as [config [e|]]; [discriminate|].
  eauto.
Qed.

(** C8 (as amended). For a file that loads and maps to the values [m],
    [LoadConfigFile] returns an error exactly when the access key, the access
    token or the host base is empty (the secret key plays no part); on
    success the endpoint is the file's host base with [https://] put before
    it when [use_https] is set, and the file's host base as it stands
    otherwise. *)
Theorem LoadConfigFile_error_iff :
  forall (Load : string -> ini.File + error) (path : string) (m : Config),
    configured Load path = Some m ->
    (snd (LoadConfigFile Load path) <> None <->
       AccessKey m = ""%string \/ AccessToken m = ""%string \/ HostBase m = ""%string) /\
    (forall c, LoadConfigFile Load path = (Some c, None) ->
       HostBase c = if UseHTTPS m then "https://" +:+ HostBase m else HostBase m) /\
    (snd (LoadConfigFile Load path) = None ->
       exists c, fst (LoadConfigFile Load path) = Some c).
Proof.
  intros Load path m Hm. rewrite (LoadConfigFile_configured Load path m Hm).
  destruct (is_empty (AccessKey m)) eqn:Hk; simpl.
  { apply is_empty_true in Hk. repeat split; try done; auto. }
  destruct (is_empty (AccessToken m)) eqn:Ht; simpl.
  { apply is_empty_true in Ht. repeat split; try done; auto. }
  destruct (is_empty (HostBase m)) eqn:Hh; simpl.
  { apply is_empty_true in Hh. repeat split; try done; auto. }
  apply is_empty_false in Hk, Ht, Hh.
  split; [|split].
  - split; [done|]. intros [?|[?|?]]; done.
  - intros c [= <-].
    destruct (UseHTTPS m); simpl;
      repeat match goal with
             | |- context [if ?b then _ else _] => destruct b; simpl
             end; reflexivity.
  - eauto.
Qed.

Lemma LoadConfigFile_error_iff_witness :
  snd (LoadConfigFile (fun _ => inl (ini.holding required_keys_only)) "s3cmd.conf") = None /\
  exists c, LoadConfigFile (fun _ => inl (ini.holding required_keys_only)) "s3cmd.conf"
            = (Some c, None) /\
            HostBase c = "https://s3.example.org"%string.
Proof.
  destruct (LoadConfigFile_error_iff
              (fun _ => inl (ini.holding required_keys_only)) "s3cmd.conf"
              required_keys_only eq_refl) as (Hiff & Hhost & Hsome).
  split; [reflexivity|].
  eexists. split; [reflexivity|]. apply Hhost. reflexivity.
Defined.

(** C8 (as stated) fails: a file whose host base already starts with
    [https://] and that does not set [use_https] loads with success, and the
    returned endpoint starts with [https://]. *)
Lemma LoadConfigFile_https_counterexample :
  UseHTTPS scheme_in_host_base = false /\
  configured (fun _ => inl (ini.holding scheme_in_host_base)) "s3cmd.conf"
    = Some scheme_in_host_base /\
  exists c,
    LoadConfigFile (fun _ => inl (ini.holding scheme_in_host_base)) "s3cmd.conf"
      = (Some c, None) /\
    String.prefix "https://" (HostBase c) = true.
Proof.
  split; [reflexivity|]. split; [reflexivity|].
  eexists. split; reflexivity.
Qed.

(** C9. Every [Config] that [LoadConfigFile] returns with success has
    [MultipartChunkSizeMb >= 15]: a configured value of at most 15 (0 when
    the key is absent, or negative) is replaced by 15, a larger one is kept. *)
Theorem LoadConfigFile_chunk_size_at_least_15 :
  forall (Load : string -> ini.File + error) (path : string) (c : Config),
    LoadConfigFile Load path = (Some c, None) ->
    15 <= MultipartChunkSizeMb c /\
    exists m, configured Load path = Some m /\
      (MultipartChunkSizeMb m <= 15 -> MultipartChunkSizeMb c = 15) /\
      (15 < MultipartChunkSizeMb m -> MultipartChunkSizeMb c = MultipartChunkSizeMb m).
Proof.
  intros Load path c Hc.
  destruct (LoadConfigFile_success_configured Load path c Hc) as [m Hm].
  rewrite (LoadConfigFile_configured Load path m Hm) in Hc.
  destruct (is_empty (AccessKey m) || is_empty (AccessToken m)); [discriminate|].
  destruct (is_empty (HostBase m)); [discriminate|].
  simpl in Hc. injection Hc as <-.
  assert (Hsame : forall c1 : Config,
             MultipartChunkSizeMb
               (if is_empty (Encoding c1) then set_Encoding c1 "UTF-8" else c1)
             = MultipartChunkSizeMb c1).
  { intros c1. by destruct (is_empty (Encoding c1)). }
  assert (Hhost : MultipartChunkSizeMb
                    (if UseHTTPS m then set_HostBase m ("https://" +:+ HostBase m) else m)
                  = MultipartChunkSizeMb m).
  { by destruct (UseHTTPS m). }
  rewrite Hsame, Hhost.
  destruct (MultipartChunkSizeMb m <=? 15) eqn:Hle.
  - apply Z.leb_le in Hle. simpl. split; [lia|].
    exists m. split; [exact Hm|]. split; intros; [reflexivity|lia].
  - apply Z.leb_gt in Hle. rewrite Hsame, Hhost. split; [lia|].
    exists m. split; [exact Hm|]. split; intros; [lia|reflexivity].
Qed.

Lemma LoadConfigFile_chunk_size_at_least_15_witness :
  exists c,
    LoadConfigFile (fun _ => inl (ini.holding required_keys_only)) "s3cmd.conf"
      = (Some c, None) /\
    15 <= MultipartChunkSizeMb c.
Proof.
  eexists. split; [reflexivity|].
  eapply (LoadConfigFile_chunk_size_at_least_15
            (fun _ => inl (ini.holding required_keys_only)) "s3cmd.conf").
  reflexivity.
Defined.

(** ** Listing files *)


(** ** The chunk codec *)
Module ChunkCodecFacts.
Import ChunkCodec.

Section Facts.

Context (P : Primitives) (HP : Lawful P).

Lemma windows_from_concat fuel x :
  (length x <= fuel)%nat -> concat (windows_from P fuel x) = x.
Proof.
  revert x. induction fuel as [|fuel IH]; intros x Hlen.
  - destruct x; [done|simpl in Hlen; lia].
  - destruct x as [|a x]; [done|].
    change (concat (take (blockSize P) (a :: x)
                    :: windows_from P fuel (drop (blockSize P) (a :: x)))
            = a :: x).
    rewrite concat_cons, IH; [apply take_drop|].
    rewrite length_drop. pose proof (blockSize_pos P HP). simpl in *. lia.
Qed.

Lemma windows_concat x : concat (windows P x) = x.
Proof. by apply windows_from_concat. Qed.

Lemma verifies_encoded k i w :
  verifies P k i
    {| sequence_index := i; plaintext_length := length w;
       ciphertext := encrypt P k i w;
       authentication_tag := tag P k i (encrypt P k i w) |} = true.
Proof.
  unfold verifies; simpl. rewrite Nat.eqb_refl. simpl.
  by apply (Tag_eqb_eq P HP).
Qed.

Lemma decode_encode_blocks k i ws :
  decode_blocks P k i (encode_blocks P k i ws) = Some (concat ws).
Proof.
  revert i. induction ws as [|w ws IH]; intros i; [done|].
  simpl encode_blocks. cbn [decode_blocks].
  rewrite verifies_encoded, IH. simpl.
  by rewrite (decrypt_encrypt P HP).
Qed.

Lemma unseal_any_recipient recipients pub priv k :
  keypair P pub priv -> In pub recipients ->
  unseal_any P priv (map (fun pub => seal P pub k) recipients) = Some k.
Proof.
  intros Hkp. induction recipients as [|r recipients IH]; [done|].
  intros Hin. simpl.
  destruct (unseal P priv (seal P r k)) as [k'|] eqn:Hr.
  - f_equal. by eapply (unseal_sound P HP).
  - destruct Hin as [->|Hin]; [|by apply IH].
    rewrite (unseal_seal P HP) in Hr by done. discriminate.
Qed.

Lemma decode_blocks_tampered k t ws :
  forall i j b,
    encode_blocks P k j ws !! i = Some b ->
    t <> authentication_tag P b ->
    decode_blocks P k j (alter (set_tag P t) i (encode_blocks P k j ws)) = None.
Proof.
  induction ws as [|w ws IH]; intros i j b Hb Ht; [done|].
  destruct i as [|i]; simpl in Hb.
  - injection Hb as <-. simpl in Ht. simpl.
    unfold verifies; simpl. rewrite Nat.eqb_refl; simpl.
    destruct (Tag_eqb P t (tag P k j (encrypt P k j w))) eqn:Heq; [|done].
    apply (Tag_eqb_eq P HP) in Heq. done.
  - simpl encode_blocks.
    change (alter (set_tag P t) (S i) (?b0 :: ?l)) with (b0 :: alter (set_tag P t) i l).
    cbn [decode_blocks]. rewrite verifies_encoded.
    by rewrite (IH i (S j) b Hb Ht).
Qed.

End Facts.

Lemma toy_Lawful : Lawful toy.
Proof.
  split; simpl.
  - intros pub priv k ->. by rewrite Nat.eqb_refl.
  - intros pub priv k k'. destruct (Nat.eqb pub priv); congruence.
  - intros _ _ m. rewrite removelast_last, rev_involutive. apply firstn_all.
  - intros t t'. apply Nat.eqb_eq.
  - lia.
Qed.

End ChunkCodecFacts.

(** C2. Decoding the encoding of a plaintext gives the plaintext back,
    whatever its size, for every recipient of the stream: nothing fails and
    exactly the bytes of [x] are emitted. *)
Theorem decode_encode_roundtrip :
  forall (P : ChunkCodec.Primitives), ChunkCodec.Lawful P ->
  forall (recipients : list (ChunkCodec.PublicKey P)) (k : ChunkCodec.DataKey P)
         (pub : ChunkCodec.PublicKey P) (priv : ChunkCodec.PrivateKey P)
         (x : list Byte.byte),
    ChunkCodec.keypair P pub priv -> In pub recipients ->
    ChunkCodec.decode P priv (ChunkCodec.encode P recipients k x)
    = {| ChunkCodec.emitted := x; ChunkCodec.failure := None |}.
Proof.
  intros P HP recipients k pub priv x Hkp Hin.
  unfold ChunkCodec.decode, ChunkCodec.encode; simpl.
  rewrite (ChunkCodecFacts.unseal_any_recipient P HP recipients pub priv k Hkp Hin).
  rewrite (ChunkCodecFacts.decode_encode_blocks P HP).
  by rewrite (ChunkCodecFacts.windows_concat P HP).
Qed.

Lemma decode_encode_roundtrip_witness :
  ChunkCodec.decode ChunkCodec.toy 9%nat
    (ChunkCodec.encode ChunkCodec.toy [7%nat; 9%nat] 42%nat ChunkCodec.five_bytes)
  = {| ChunkCodec.emitted := ChunkCodec.five_bytes; ChunkCodec.failure := None |}.
Proof.
  apply (decode_encode_roundtrip ChunkCodec.toy ChunkCodecFacts.toy_Lawful
           [7%nat; 9%nat] 42%nat 9%nat 9%nat ChunkCodec.five_bytes).
  - reflexivity.
  - simpl. auto.
Defined.

(** C3. A stream in which the tag of any one block has been replaced by
    another tag does not decode: the decoder fails with [IntegrityError]
    and emits no plaintext byte. *)
Theorem decode_tampered_tag :
  forall (P : ChunkCodec.Primitives), ChunkCodec.Lawful P ->
  forall (recipients : list (ChunkCodec.PublicKey P)) (k : ChunkCodec.DataKey P)
         (pub : ChunkCodec.PublicKey P) (priv : ChunkCodec.PrivateKey P)
         (x : list Byte.byte) (i : nat) (b : ChunkCodec.CipherBlock P)
         (t : ChunkCodec.Tag P),
    ChunkCodec.keypair P pub priv -> In pub recipients ->
    ChunkCodec.blocks P (ChunkCodec.encode P recipients k x) !! i = Some b ->
    t <> ChunkCodec.authentication_tag P b ->
    ChunkCodec.decode P priv
      (ChunkCodec.tamper_tag P i t (ChunkCodec.encode P recipients k x))
    = {| ChunkCodec.emitted := [];
         ChunkCodec.failure := Some ChunkCodec.IntegrityError |}.
Proof.
  intros P HP recipients k pub priv x i b t Hkp Hin Hb Ht.
  unfold ChunkCodec.decode, ChunkCodec.tamper_tag, ChunkCodec.encode in *; simpl in *.
  rewrite (ChunkCodecFacts.unseal_any_recipient P HP recipients pub priv k Hkp Hin).
  by rewrite (ChunkCodecFacts.decode_blocks_tampered P HP k t _ i 0%nat b Hb Ht).
Qed.

Lemma decode_tampered_tag_witness :
  ChunkCodec.decode ChunkCodec.toy 9%nat
    (ChunkCodec.tamper_tag ChunkCodec.toy 1 0%nat
       (ChunkCodec.encode ChunkCodec.toy [7%nat; 9%nat] 42%nat ChunkCodec.five_bytes))
  = {| ChunkCodec.emitted := []; ChunkCodec.failure := Some ChunkCodec.IntegrityError |}.
Proof.
  eapply (decode_tampered_tag ChunkCodec.toy ChunkCodecFacts.toy_Lawful
            [7%nat; 9%nat] 42%nat 9%nat 9%nat ChunkCodec.five_bytes 1).
  - reflexivity.
  - simpl. auto.
  - reflexivity.
  - simpl. discriminate.
Defined.

(** The sizes the design document lists, on the four-byte blocks of [toy]:
    no byte, one byte, one block, one block and a byte, several blocks. *)
Example decode_encode_sizes :
  Forall (fun x =>
            ChunkCodec.decode ChunkCodec.toy 9%nat
              (ChunkCodec.encode ChunkCodec.toy [9%nat] 42%nat x)
            = {| ChunkCodec.emitted := x; ChunkCodec.failure := None |})
         [ [];
           take 1 ChunkCodec.five_bytes;
           take 4 ChunkCodec.five_bytes;
           ChunkCodec.five_bytes;
           ChunkCodec.five_bytes ++ ChunkCodec.five_bytes ++ ChunkCodec.five_bytes ].
Proof. repeat constructor. Qed.

Example encode_final_block_shorter :
  map (ChunkCodec.plaintext_length ChunkCodec.toy)
      (ChunkCodec.blocks ChunkCodec.toy
         (ChunkCodec.encode ChunkCodec.toy [9%nat] 42%nat ChunkCodec.five_bytes))
  = [4%nat; 1%nat].
Proof. reflexivity. Qed.

(** ** The part planner *)
Module PartPlannerFacts.
Import PartPlanner.
Local Open Scope N_scope.

Lemma round_up_divide x b : N.divide b (round_up x b).
Proof. unfold round_up. by exists (ceil_div x b). Qed.

Lemma part_size_divide blockSize total minPartSize maxPartCount :
  N.divide blockSize (part_size blockSize total minPartSize maxPartCount).
Proof. apply round_up_divide. Qed.

(** Every part before the last is a full part. *)
Lemma full_part total size (i : nat) :
  (S i < N.to_nat (ceil_div total size))%nat ->
  N.min size (total - N.of_nat i * size) = size.
Proof.
  unfold ceil_div. intros Hi.
  destruct (N.eq_dec size 0) as [->|Hsize].
  { apply N.min_l. lia. }
  assert (Hdiv : size * ((total + size - 1) / size) <= total + size - 1).
  { by apply N.Div0.mul_div_le. }
  apply N.min_l.
  assert (N.of_nat (S (S i)) <= (total + size - 1) / size) by lia.
  nia.
Qed.

Lemma plan_lookup blockSize maxPartSize total minPartSize maxPartCount parts i part :
  plan blockSize maxPartSize total minPartSize maxPartCount = inr parts ->
  parts !! i = Some part ->
  part =
    {| part_number := N.of_nat i + 1;
       range_offset :=
         N.of_nat i * part_size blockSize total minPartSize maxPartCount;
       range_length :=
         N.min (part_size blockSize total minPartSize maxPartCount)
               (total - N.of_nat i * part_size blockSize total minPartSize maxPartCount) |}
  /\ length parts
     = N.to_nat (ceil_div total (part_size blockSize total minPartSize maxPartCount)).
Proof.
  unfold plan. destruct (_ <? _); [discriminate|].
  intros [= <-] Hi. rewrite length_map, length_seq. split; [|done].
  rewrite list_lookup_fmap in Hi.
  destruct (seq 0 _ !! i) as [j|] eqn:Hj; [|discriminate].
  apply lookup_seq in Hj as [-> _]. simpl in Hi. by injection Hi as <-.
Qed.

Lemma ceil_div_bounds a b :
  0 < b -> a <= ceil_div a b * b /\ ceil_div a b * b < a + b.
Proof.
  intros Hb. unfold ceil_div.
  pose proof (N.div_mod (a + b - 1) b ltac:(lia)) as Hdm.
  pose proof (N.mod_lt (a + b - 1) b ltac:(lia)) as Hlt.
  rewrite (N.mul_comm _ b).
  revert Hdm Hlt.
  generalize ((a + b - 1) / b) as q. generalize ((a + b - 1) mod b) as r.
  intros r q Hdm Hlt. nia.
Qed.

Lemma ceil_div_0_l b : ceil_div 0 b = 0.
Proof.
  unfold ceil_div. destruct b as [|b]; [reflexivity|].
  apply N.div_small. lia.
Qed.

Lemma ceil_div_0_r a : ceil_div a 0 = 0.
Proof. unfold ceil_div. by destruct (a + 0 - 1). Qed.

(** The plan keeps what section 4.2 asks of the part size and of the count
    of parts. *)
Lemma part_size_at_least_min blockSize total minPartSize maxPartCount :
  0 < blockSize ->
  minPartSize <= part_size blockSize total minPartSize maxPartCount.
Proof.
  intros Hb. unfold part_size, round_up.
  pose proof (ceil_div_bounds (N.max minPartSize (ceil_div total maxPartCount))
                blockSize Hb). lia.
Qed.

Lemma plan_part_count blockSize maxPartSize total minPartSize maxPartCount parts :
  0 < blockSize ->
  plan blockSize maxPartSize total minPartSize maxPartCount = inr parts ->
  N.of_nat (length parts) <= maxPartCount.
Proof.
  intros Hb. unfold plan.
  destruct (maxPartCount * maxPartSize <? total) eqn:Hcover; [discriminate|].
  apply N.ltb_ge in Hcover. intros [= <-].
  rewrite length_map, length_seq, N2Nat.id.
  set (size := part_size blockSize total minPartSize maxPartCount).
  destruct (N.eq_dec total 0) as [->|Htotal].
  { rewrite ceil_div_0_l. lia. }
  assert (0 < maxPartCount) as Hcount by nia.
  assert (ceil_div total maxPartCount <= size) as Hsize.
  { unfold size, part_size, round_up.
    pose proof (ceil_div_bounds (N.max minPartSize (ceil_div total maxPartCount))
                  blockSize Hb). lia. }
  pose proof (ceil_div_bounds total maxPartCount Hcount) as [Hc _].
  assert (0 < size) as Hpos by nia.
  pose proof (ceil_div_bounds total size Hpos) as [_ Hn].
  nia.
Qed.

(** The parts of a plan lie one after the other and end where the stream
    ends. *)
Lemma plan_contiguous blockSize maxPartSize total minPartSize maxPartCount parts i p q :
  plan blockSize maxPartSize total minPartSize maxPartCount = inr parts ->
  parts !! i = Some p -> parts !! S i = Some q ->
  range_offset q = range_offset p + range_length p.
Proof.
  intros Hplan Hp Hq.
  destruct (plan_lookup _ _ _ _ _ _ _ _ Hplan Hp) as [-> Hlen].
  destruct (plan_lookup _ _ _ _ _ _ _ _ Hplan Hq) as [-> _].
  apply lookup_lt_Some in Hq. rewrite Hlen in Hq.
  simpl. rewrite (full_part _ _ _ Hq). lia.
Qed.

Lemma plan_ends_at_total blockSize maxPartSize total minPartSize maxPartCount parts i p :
  0 < blockSize ->
  plan blockSize maxPartSize total minPartSize maxPartCount = inr parts ->
  parts !! i = Some p -> S i = length parts ->
  range_offset p + range_length p = total /\ 0 < range_length p.
Proof.
  intros Hb Hplan Hp Hlast.
  destruct (plan_lookup _ _ _ _ _ _ _ _ Hplan Hp) as [-> Hlen].
  rewrite Hlen in Hlast. simpl.
  set (size := part_size blockSize total minPartSize maxPartCount) in *.
  destruct (N.eq_dec size 0) as [Hz|Hnz].
  { rewrite Hz, ceil_div_0_r in Hlast. discriminate. }
  pose proof (ceil_div_bounds total size ltac:(lia)) as [Hge Hlt].
  assert (ceil_div total size = N.of_nat i + 1) as Hn by lia.
  rewrite Hn in Hge, Hlt. lia.
Qed.

End PartPlannerFacts.

(** C4. [plan] is deterministic, and in every plan it returns each part
    starts on a multiple of the fixed block size and each part but the last
    has a length that is a multiple of it, so that every boundary between
    two parts is a block boundary; parts are numbered from 1. *)
Theorem plan_deterministic_and_block_aligned :
  forall (blockSize maxPartSize : N) (total minPartSize maxPartCount : N)
         (total' minPartSize' maxPartCount' : N)
         (parts : list PartPlanner.PartRange),
    PartPlanner.plan blockSize maxPartSize total minPartSize maxPartCount = inr parts ->
    ((total, minPartSize, maxPartCount) = (total', minPartSize', maxPartCount') ->
     PartPlanner.plan blockSize maxPartSize total' minPartSize' maxPartCount' = inr parts) /\
    (forall (i : nat) (part : PartPlanner.PartRange),
       parts !! i = Some part ->
       PartPlanner.part_number part = (N.of_nat i + 1)%N /\
       N.divide blockSize (PartPlanner.range_offset part) /\
       ((S i < length parts)%nat ->
        N.divide blockSize (PartPlanner.range_length part) /\
        N.divide blockSize
          (PartPlanner.range_offset part + PartPlanner.range_length part))).
Proof.
  intros blockSize maxPartSize total minPartSize maxPartCount
         total' minPartSize' maxPartCount' parts Hplan.
  split; [by intros [= <- <- <-]|].
  intros i part Hi.
  destruct (PartPlannerFacts.plan_lookup _ _ _ _ _ _ _ _ Hplan Hi) as [-> Hlen].
  simpl. split; [done|].
  pose proof (PartPlannerFacts.part_size_divide
                blockSize total minPartSize maxPartCount) as Hdiv.
  split; [by apply N.divide_mul_r|].
  intros Hlast. rewrite Hlen in Hlast.
  rewrite (PartPlannerFacts.full_part _ _ _ Hlast).
  split; [done|]. apply N.divide_add_r; [by apply N.divide_mul_r|done].
Qed.

(** The scenario of the design document: 25 MB in parts of 8 MB on blocks
    of 64 KB give four parts, the last one shorter. *)
Example plan_25MB :
  PartPlanner.plan (64 * PartPlanner.KB) (5 * 1024 * PartPlanner.MB)
    (25 * PartPlanner.MB) (8 * PartPlanner.MB) 10000
  = inr [ {| PartPlanner.part_number := 1; PartPlanner.range_offset := 0;
             PartPlanner.range_length := 8388608 |};
          {| PartPlanner.part_number := 2; PartPlanner.range_offset := 8388608;
             PartPlanner.range_length := 8388608 |};
          {| PartPlanner.part_number := 3; PartPlanner.range_offset := 16777216;
             PartPlanner.range_length := 8388608 |};
          {| PartPlanner.part_number := 4; PartPlanner.range_offset := 25165824;
             PartPlanner.range_length := 1048576 |} ]%N.
Proof. vm_compute. reflexivity. Qed.

Lemma plan_deterministic_and_block_aligned_witness :
  N.divide (64 * PartPlanner.KB) 16777216 /\
  N.divide (64 * PartPlanner.KB) 8388608.
Proof.
  destruct (plan_deterministic_and_block_aligned
              (64 * PartPlanner.KB) (5 * 1024 * PartPlanner.MB)
              (25 * PartPlanner.MB) (8 * PartPlanner.MB) 10000
              (25 * PartPlanner.MB) (8 * PartPlanner.MB) 10000
              _ plan_25MB) as [_ Hparts].
  destruct (Hparts 2%nat
              {| PartPlanner.part_number := 3; PartPlanner.range_offset := 16777216;
                 PartPlanner.range_length := 8388608 |} eq_refl)
    as (_ & Hoff & Hlen).
  split; [exact Hoff|]. apply Hlen. simpl. lia.
Defined.

(** ** Positional arguments and flags *)
Module helpersFacts.
Import helpers.

Lemma getPositional_from_spec n :
  forall rest pos kept,
    (length rest <= n)%nat ->
    getPositional_from rest = Some (pos, kept) ->
    rest ≡ₚ kept ++ pos /\ sublist pos rest /\ sublist kept rest /\
    Forall is_positional pos.
Proof.
  induction n as [|n IH]; intros rest pos kept Hlen Hget.
  - destruct rest; [|simpl in Hlen; lia]. simpl in Hget. injection Hget as <- <-.
    repeat split; constructor.
  - destruct rest as [|a tl].
    { simpl in Hget. injection Hget as <- <-. repeat split; constructor. }
    simpl in Hlen. cbn [getPositional_from] in Hget.
    destruct (In_dec string_dec a argList) as [Hflag|Hflag].
    + destruct (getPositional_from tl) as [[pos' kept']|] eqn:Htl; [|discriminate].
      injection Hget as <- <-.
      destruct (IH tl pos' kept' ltac:(lia) Htl) as (Hperm & Hpos & Hkept & Hall).
      repeat split; [by constructor|by constructor|by constructor|done].
    + destruct a as [|c a']; [discriminate|].
      destruct (Ascii.eqb c "-") eqn:Hdash.
      * destruct tl as [|v tl'].
        { injection Hget as <- <-. repeat split; try done; repeat constructor. }
        destruct (getPositional_from tl') as [[pos' kept']|] eqn:Htl; [|discriminate].
        injection Hget as <- <-. simpl in Hlen.
        destruct (IH tl' pos' kept' ltac:(lia) Htl) as (Hperm & Hpos & Hkept & Hall).
        repeat split; [by do 2 constructor|by do 2 constructor|by do 2 constructor|done].
      * destruct (getPositional_from tl) as [[pos' kept']|] eqn:Htl; [|discriminate].
        injection Hget as <- <-.
        destruct (IH tl pos' kept' ltac:(lia) Htl) as (Hperm & Hpos & Hkept & Hall).
        repeat split.
        -- rewrite <- Permutation_middle. by constructor.
        -- by constructor.
        -- by constructor.
        -- constructor; [|done]. split; [done|].
           exists c, a'. split; [done|]. intros ->. discriminate.
Qed.

Lemma getPositional_from_kept n :
  forall rest pos kept,
    (length rest <= n)%nat ->
    getPositional_from rest = Some (pos, kept) ->
    getPositional_from kept = Some ([], kept).
Proof.
  induction n as [|n IH]; intros rest pos kept Hlen Hget.
  - destruct rest; [|simpl in Hlen; lia]. simpl in Hget. by injection Hget as <- <-.
  - destruct rest as [|a tl].
    { simpl in Hget. by injection Hget as <- <-. }
    simpl in Hlen. cbn [getPositional_from] in Hget.
    destruct (In_dec string_dec a argList) as [Hflag|Hflag] eqn:Hdec.
    + destruct (getPositional_from tl) as [[pos' kept']|] eqn:Htl; [|discriminate].
      injection Hget as <- <-.
      cbn [getPositional_from]. rewrite Hdec.
      by rewrite (IH tl pos' kept' ltac:(lia) Htl).
    + destruct a as [|c a']; [discriminate|].
      destruct (Ascii.eqb c "-") eqn:Hdash.
      * destruct tl as [|v tl'].
        { injection Hget as <- <-. cbn [getPositional_from]. by rewrite Hdec, Hdash. }
        destruct (getPositional_from tl') as [[pos' kept']|] eqn:Htl; [|discriminate].
        injection Hget as <- <-. simpl in Hlen.
        cbn [getPositional_from]. rewrite Hdec, Hdash.
        by rewrite (IH tl' pos' kept' ltac:(lia) Htl).
      * destruct (getPositional_from tl) as [[pos' kept']|] eqn:Htl; [|discriminate].
        injection Hget as <- <-.
        by apply (IH tl pos' kept' ltac:(lia) Htl).
Qed.

Lemma getPositional_from_total n :
  forall rest,
    (length rest <= n)%nat ->
    Forall (fun a => a <> ""%string) rest ->
    exists pos kept, getPositional_from rest = Some (pos, kept).
Proof.
  induction n as [|n IH]; intros rest Hlen Hne.
  - destruct rest; [|simpl in Hlen; lia]. by exists [], [].
  - destruct rest as [|a tl]; [by exists [], []|].
    simpl in Hlen. apply Forall_cons in Hne as [Ha Htl].
    cbn [getPositional_from].
    destruct (IH tl ltac:(lia) Htl) as (pos & kept & Hget).
    destruct (In_dec string_dec a argList) as [Hflag|Hflag].
    + rewrite Hget. by eexists _, _.
    + destruct a as [|c a']; [done|].
      destruct (Ascii.eqb c "-").
      * destruct tl as [|v tl']; [by eexists _, _|].
        apply Forall_cons in Htl as [_ Htl']. simpl in Hlen.
        destruct (IH tl' ltac:(lia) Htl') as (pos' & kept' & Hget').
        rewrite Hget'. by eexists _, _.
      * rewrite Hget. by eexists _, _.
Qed.

Lemma getPositional_from_splits_1 n :
  forall rest pos kept,
    (length rest <= n)%nat ->
    getPositional_from rest = Some (pos, kept) ->
    splits rest pos kept.
Proof.
  induction n as [|n IH]; intros rest pos kept Hlen Hget.
  - destruct rest; [|simpl in Hlen; lia]. simpl in Hget. injection Hget as <- <-.
    constructor.
  - destruct rest as [|a tl].
    { simpl in Hget. injection Hget as <- <-. constructor. }
    simpl in Hlen. cbn [getPositional_from] in Hget.
    destruct (In_dec string_dec a argList) as [Hflag|Hflag].
    + destruct (getPositional_from tl) as [[pos' kept']|] eqn:Htl; [|discriminate].
      injection Hget as <- <-. apply splits_boolean; [done|].
      by apply IH; [lia|].
    + destruct a as [|c a']; [discriminate|].
      destruct (Ascii.eqb c "-") eqn:Hdash.
      * apply Ascii.eqb_eq in Hdash as ->.
        destruct tl as [|v tl'].
        { injection Hget as <- <-. apply splits_last_flag; [done|by exists a']. }
        destruct (getPositional_from tl') as [[pos' kept']|] eqn:Htl; [|discriminate].
        injection Hget as <- <-. simpl in Hlen.
        apply splits_flag_value; [done|by exists a'|]. by apply IH; [lia|].
      * destruct (getPositional_from tl) as [[pos' kept']|] eqn:Htl; [|discriminate].
        injection Hget as <- <-. apply Ascii.eqb_neq in Hdash.
        apply splits_positional; [|by apply IH; [lia|]].
        split; [done|]. by exists c, a'.
Qed.

Lemma getPositional_from_splits_2 rest pos kept :
  splits rest pos kept -> getPositional_from rest = Some (pos, kept).
Proof.
  induction 1 as [|a args pos kept Hin _ IH|a v args pos kept Hnin [r ->] _ IH
                 |a Hnin [r ->]|a args pos kept [Hnin (c & r & -> & Hc)] _ IH].
  - done.
  - cbn [getPositional_from].
    destruct (In_dec string_dec a argList); [|done]. by rewrite IH.
  - cbn [getPositional_from].
    destruct (In_dec string_dec (String "-" r) argList); [done|].
    rewrite Ascii.eqb_refl. by rewrite IH.
  - cbn [getPositional_from].
    destruct (In_dec string_dec (String "-" r) argList); [done|].
    by rewrite Ascii.eqb_refl.
  - cbn [getPositional_from].
    destruct (In_dec string_dec (String c r) argList); [done|].
    apply Ascii.eqb_neq in Hc. rewrite Hc. by rewrite IH.
Qed.

(** The function and the rule agree. *)
Lemma getPositional_from_splits rest pos kept :
  getPositional_from rest = Some (pos, kept) <-> splits rest pos kept.
Proof.
  split.
  - by apply (getPositional_from_splits_1 (length rest)).
  - apply getPositional_from_splits_2.
Qed.

End helpersFacts.

(** X1. [getPositional] splits the arguments after the program name by the
    rule of its comments, and by nothing else: it returns the positional
    arguments and the program name followed by the kept ones exactly when
    the rule splits the arguments that way (a known boolean flag is kept; any
    other argument that starts with a dash is kept with the argument after
    it; every other argument is positional). So the order within each group
    is kept, the two groups together are a rearrangement of the input, and
    every positional argument is a non-empty string that is neither a known
    boolean flag nor starts with a dash. *)
Theorem getPositional_partition :
  forall (arg0 : string) (rest pos args : list string),
    (helpers.getPositional (arg0 :: rest) = Some (pos, args) <->
     exists kept, args = arg0 :: kept /\ helpers.splits rest pos kept) /\
    (helpers.getPositional (arg0 :: rest) = Some (pos, args) ->
     exists kept,
       args = arg0 :: kept /\
       rest ≡ₚ kept ++ pos /\ sublist pos rest /\ sublist kept rest /\
       Forall helpers.is_positional pos).
Proof.
  intros arg0 rest pos args. unfold helpers.getPositional. split; [split|].
  - destruct (helpers.getPositional_from rest) as [[pos' kept]|] eqn:Hget; [|discriminate].
    intros [= <- <-]. exists kept. split; [done|].
    by apply helpersFacts.getPositional_from_splits.
  - intros (kept & -> & Hsplit).
    apply helpersFacts.getPositional_from_splits in Hsplit. by rewrite Hsplit.
  - destruct (helpers.getPositional_from rest) as [[pos' kept]|] eqn:Hget; [|discriminate].
    intros [= <- <-]. exists kept. split; [done|].
    by apply (helpersFacts.getPositional_from_spec (length rest)).
Qed.

Lemma getPositional_partition_witness :
  exists kept,
    ["sda-cli"; "-config"; "s3cmd.conf"; "-r"]%string = "sda-cli"%string :: kept /\
    ["file.c4gh"; "-config"; "s3cmd.conf"; "-r"; "dir"]%string
      ≡ₚ kept ++ ["file.c4gh"; "dir"]%string /\
    sublist ["file.c4gh"; "dir"]%string
            ["file.c4gh"; "-config"; "s3cmd.conf"; "-r"; "dir"]%string /\
    sublist kept ["file.c4gh"; "-config"; "s3cmd.conf"; "-r"; "dir"]%string /\
    Forall helpers.is_positional ["file.c4gh"; "dir"]%string.
Proof.
  apply (getPositional_partition "sda-cli"
           ["file.c4gh"; "-config"; "s3cmd.conf"; "-r"; "dir"]%string).
  reflexivity.
Defined.

(** X2. [ParseArgs] hands the flag set every flag before any positional
    argument: when no argument is an empty string it does not panic, and
    what [Parse] receives is the kept arguments followed by the positional
    ones, as the rule of [getPositional] splits the arguments after the
    program name (a known boolean flag is kept; any other argument that
    starts with a dash is kept with the argument after it; every other
    argument is positional). Nothing is lost or added, each group keeps its
    order, and the rule finds no positional argument among the kept ones. *)
Theorem ParseArgs_reorders :
  forall (Parse : list string -> option error) (arg0 : string) (rest : list string),
    Forall (fun a => a <> ""%string) rest ->
    exists kept pos,
      helpers.ParseArgs Parse (arg0 :: rest) = Some (Parse (kept ++ pos)) /\
      helpers.splits rest pos kept /\
      helpers.splits kept [] kept /\
      rest ≡ₚ kept ++ pos /\ sublist kept rest /\ sublist pos rest /\
      Forall helpers.is_positional pos.
Proof.
  intros Parse arg0 rest Hne.
  destruct (helpersFacts.getPositional_from_total (length rest) rest (le_n _) Hne)
    as (pos & kept & Hget).
  destruct (helpersFacts.getPositional_from_spec (length rest) rest pos kept (le_n _) Hget)
    as (Hperm & Hpos & Hkept & Hall).
  exists kept, pos. split; [|split; [|split]].
  - unfold helpers.ParseArgs, helpers.getPositional. by rewrite Hget.
  - by apply helpersFacts.getPositional_from_splits.
  - apply helpersFacts.getPositional_from_splits.
    by apply (helpersFacts.getPositional_from_kept (length rest) rest pos kept).
  - done.
Qed.

Lemma ParseArgs_reorders_witness :
  exists kept pos,
    helpers.ParseArgs (fun a => Some (String.concat " " a))
      ["sda-cli"; "file.c4gh"; "-config"; "s3cmd.conf"; "-r"; "dir"]%string
    = Some (Some (String.concat " " (kept ++ pos))) /\
    helpers.splits ["file.c4gh"; "-config"; "s3cmd.conf"; "-r"; "dir"]%string pos kept /\
    helpers.splits kept [] kept /\
    ["file.c4gh"; "-config"; "s3cmd.conf"; "-r"; "dir"]%string ≡ₚ kept ++ pos /\
    sublist kept ["file.c4gh"; "-config"; "s3cmd.conf"; "-r"; "dir"]%string /\
    sublist pos ["file.c4gh"; "-config"; "s3cmd.conf"; "-r"; "dir"]%string /\
    Forall helpers.is_positional pos.
Proof.
  apply (ParseArgs_reorders (fun a => Some (String.concat " " a)) "sda-cli"
           ["file.c4gh"; "-config"; "s3cmd.conf"; "-r"; "dir"]%string).
  repeat constructor; discriminate.
Defined.

(** X11. [getPositional] finds nothing more in what it leaves: run on the
    arguments it returned, it returns them unchanged with no positional
    argument. *)
Theorem getPositional_idempotent :
  forall (arg0 : string) (rest pos args : list string),
    helpers.getPositional (arg0 :: rest) = Some (pos, args) ->
    helpers.getPositional args = Some ([], args).
Proof.
  intros arg0 rest pos args. unfold helpers.getPositional.
  destruct (helpers.getPositional_from rest) as [[pos' kept]|] eqn:Hget; [|discriminate].
  intros [= <- <-].
  by rewrite (helpersFacts.getPositional_from_kept (length rest) rest pos' kept (le_n _) Hget).
Qed.

Lemma getPositional_idempotent_witness :
  helpers.getPositional ["sda-cli"; "-config"; "s3cmd.conf"; "-r"]%string
  = Some ([], ["sda-cli"; "-config"; "s3cmd.conf"; "-r"]%string).
Proof.
  apply (getPositional_idempotent "sda-cli"
           ["file.c4gh"; "-config"; "s3cmd.conf"; "-r"; "dir"]%string
           ["file.c4gh"; "dir"]%string).
  reflexivity.
Defined.

(** X12. [getPositional] indexes the first byte of an argument that is not a
    known boolean flag, so it panics on an empty string right after the
    program name; it returns for every argument list without an empty
    string. *)
Theorem getPositional_panics_on_empty_argument_only :
  forall (arg0 : string) (rest : list string),
    helpers.getPositional (arg0 :: ""%string :: rest) = None /\
    (Forall (fun a => a <> ""%string) rest ->
     exists pos args, helpers.getPositional (arg0 :: rest) = Some (pos, args)).
Proof.
  intros arg0 rest. split; [reflexivity|].
  intros Hne.
  destruct (helpersFacts.getPositional_from_total (length rest) rest (le_n _) Hne)
    as (pos & kept & Hget).
  unfold helpers.getPositional. rewrite Hget. by eexists _, _.
Qed.

Lemma getPositional_panics_on_empty_argument_only_witness :
  exists pos args,
    helpers.getPositional ["sda-cli"; "-r"; "dir"]%string = Some (pos, args).
Proof.
  apply (getPositional_panics_on_empty_argument_only "sda-cli" ["-r"; "dir"]%string).
  repeat constructor; discriminate.
Defined.

(** A [ReadAt] whose underlying read fails changes nothing in the reader
    and passes the byte count and the error on. *)
Lemma ReadAt_failure_unchanged :
  forall (r : CustomReader) (p : list Byte.byte) (off : Z) (e : error),
    snd (os.ReadAt (Fp r) p off) = Some e ->
    ReadAt r p off = (os.ReadAt (Fp r) p off, r).
Proof.
  intros r p off e. unfold ReadAt.
  destruct (os.ReadAt (Fp r) p off) as [[p' n] err]; simpl. by intros ->.
Qed.

Lemma ReadAt_SignMap r p off x :
  x ∈ SignMap (snd (ReadAt r p off)) <->
  x ∈ SignMap r \/ (x = off /\ snd (os.ReadAt (Fp r) p off) = None).
Proof.
  unfold ReadAt. destruct (os.ReadAt (Fp r) p off) as [[p' n] [e|]]; simpl.
  - split; [by left|]. by intros [?|[_ ?]].
  - destruct (decide (off ∈ SignMap r)) as [Hin|Hnin]; simpl.
    + split; [by left|]. intros [?|[-> _]]; done.
    + rewrite elem_of_union, elem_of_singleton. split.
      * intros [->|?]; [by right|by left].
      * intros [?|[-> _]]; [by right|by left].
Qed.

(** X3. The calls whose read fails leave no trace: a sequence of [ReadAt]
    calls ends in the same reader as the sequence of its successful calls
    alone. *)
Theorem ReadAt_seq_successful :
  forall (r : CustomReader) (calls : list ReadAt_call),
    ReadAt_seq r calls = ReadAt_seq r (successful (Fp r) calls).
Proof.
  intros r calls. revert r. induction calls as [|[p off] calls IH]; intros r; [done|].
  unfold successful. rewrite filter_cons. simpl fst; simpl snd.
  destruct (decide (snd (os.ReadAt (Fp r) p off) = None)) as [Hok|Hfail].
  - rewrite !ReadAt_seq_cons. simpl fst; simpl snd.
    rewrite IH. by rewrite ReadAt_Fp.
  - rewrite ReadAt_seq_cons. simpl fst; simpl snd.
    destruct (snd (os.ReadAt (Fp r) p off)) as [e|] eqn:He; [|done].
    rewrite (ReadAt_failure_unchanged r p off e He). simpl. apply IH.
Qed.

(** X13. [SignMap] holds exactly the offsets it held before and the offsets
    of the calls that succeeded since; nothing is ever removed from it, and
    a failed read does not enter its offset. *)
Theorem ReadAt_seq_SignMap :
  forall (r : CustomReader) (calls : list ReadAt_call) (off : Z),
    off ∈ SignMap (ReadAt_seq r calls) <->
    off ∈ SignMap r \/
    exists c, c ∈ calls /\ snd c = off /\ call_ok (Fp r) c.
Proof.
  intros r calls. revert r. induction calls as [|[p o] calls IH]; intros r off.
  - simpl. split; [by left|]. intros [?|(c & Hc & _)]; [done|].
    by apply elem_of_nil in Hc.
  - rewrite ReadAt_seq_cons. simpl fst; simpl snd.
    rewrite IH, ReadAt_SignMap, ReadAt_Fp. split.
    + intros [[?|[-> Hok]]|(c & Hc & Hoff & Hok)].
      * by left.
      * right. exists (p, o). split; [apply list_elem_of_here|done].
      * right. exists c. split; [by apply list_elem_of_further|done].
    + intros [?|(c & Hc & Hoff & Hok)]; [by left; left|].
      apply elem_of_cons in Hc as [->|Hc].
      * left. right. simpl in Hoff. by subst.
      * right. by exists c.
Qed.

Lemma ReadAt_Bar_invariant r p off :
  Forall (is_SetTotal (Size r)) (Bar r) ->
  (bar_current (Bar r) = Some (Reads r) ->
   bar_current (Bar (snd (ReadAt r p off))) = Some (Reads (snd (ReadAt r p off)))) /\
  (bar_current (Bar r) = None ->
   bar_current (Bar (snd (ReadAt r p off))) = Some (Reads (snd (ReadAt r p off))) \/
   (bar_current (Bar (snd (ReadAt r p off))) = None /\
    Reads (snd (ReadAt r p off)) = Reads r)) /\
  Forall (is_SetTotal (Size r)) (Bar (snd (ReadAt r p off))).
Proof.
  intros Htot. unfold ReadAt.
  destruct (os.ReadAt (Fp r) p off) as [[p' n] [e|]]; simpl.
  - split; [done|]. split; [by right|done].
  - destruct (decide (off ∈ SignMap r)); simpl.
    + split; [done|]. split; [by left|]. repeat constructor; done.
    + split; [done|]. split; [by right|]. by repeat constructor.
Qed.

(** X14. The progress bar is kept in step with the counter: after any
    sequence of [ReadAt] calls on a reader that starts at zero, the last
    value given to [SetCurrent] is [Reads] (or [Reads] is still 0 and
    [SetCurrent] was never called), and every [SetTotal] carried [Size]
    without asking for completion. *)
Theorem ReadAt_seq_Bar :
  forall (fp : os.File) (size : Z) (calls : list ReadAt_call),
    (bar_current (Bar (ReadAt_seq (fresh_reader fp size) calls))
       = Some (Reads (ReadAt_seq (fresh_reader fp size) calls)) \/
     (bar_current (Bar (ReadAt_seq (fresh_reader fp size) calls)) = None /\
      Reads (ReadAt_seq (fresh_reader fp size) calls) = 0)) /\
    Forall (is_SetTotal size) (Bar (ReadAt_seq (fresh_reader fp size) calls)).
Proof.
  intros fp size calls.
  assert (Hgen : forall r,
             (bar_current (Bar r) = Some (Reads r) \/
              (bar_current (Bar r) = None /\ Reads r = 0)) ->
             Forall (is_SetTotal (Size r)) (Bar r) ->
             (bar_current (Bar (ReadAt_seq r calls)) = Some (Reads (ReadAt_seq r calls)) \/
              (bar_current (Bar (ReadAt_seq r calls)) = None /\
               Reads (ReadAt_seq r calls) = 0)) /\
             Forall (is_SetTotal (Size r)) (Bar (ReadAt_seq r calls))).
  { induction calls as [|[p off] calls IH]; intros r Hcur Htot; [done|].
    rewrite ReadAt_seq_cons. simpl fst; simpl snd.
    destruct (ReadAt_Bar_invariant r p off Htot) as (Hsome & Hnone & Htot').
    rewrite <- (ReadAt_Size r p off). apply IH.
    - destruct Hcur as [Hc|[Hc Hr]]; [left; by apply Hsome|].
      destruct (Hnone Hc) as [?|[? Hr']]; [by left|]. right. split; [done|congruence].
    - by rewrite ReadAt_Size. }
  apply (Hgen (fresh_reader fp size)); [by right|constructor].
Qed.

(** X4. A configuration that loads with success never has an empty
    [Encoding]: an absent one becomes [UTF-8], a configured one is kept. *)
Theorem LoadConfigFile_encoding_default :
  forall (Load : string -> ini.File + error) (path : string) (c m : Config),
    LoadConfigFile Load path = (Some c, None) ->
    configured Load path = Some m ->
    Encoding c = if is_empty (Encoding m) then "UTF-8"%string else Encoding m.
Proof.
  intros Load path c m Hc Hm.
  rewrite (LoadConfigFile_configured Load path m Hm) in Hc.
  destruct (is_empty (AccessKey m) || is_empty (AccessToken m)); [discriminate|].
  destruct (is_empty (HostBase m)); [discriminate|].
  simpl in Hc. injection Hc as <-.
  destruct (UseHTTPS m); simpl;
    destruct (is_empty (Encoding m)); simpl;
    match goal with
    | |- context [if ?b then _ else _] => destruct b
    end; reflexivity.
Qed.

Lemma LoadConfigFile_encoding_default_witness :
  exists c,
    LoadConfigFile (fun _ => inl (ini.holding required_keys_only)) "s3cmd.conf"
      = (Some c, None) /\
    Encoding c = "UTF-8"%string.
Proof.
  eexists. split; [reflexivity|].
  apply (LoadConfigFile_encoding_default
           (fun _ => inl (ini.holding required_keys_only)) "s3cmd.conf" _
           required_keys_only); reflexivity.
Defined.

(** What a successful [LoadConfigFile] returns, field by field. *)
Lemma LoadConfigFile_success_shape Load path c :
  LoadConfigFile Load path = (Some c, None) ->
  exists m,
    configured Load path = Some m /\
    AccessKey m <> ""%string /\ AccessToken m <> ""%string /\ HostBase m <> ""%string /\
    c = {| AccessKey := AccessKey m; SecretKey := SecretKey m;
           AccessToken := AccessToken m; HostBucket := HostBucket m;
           HostBase := if UseHTTPS m then "https://" +:+ HostBase m else HostBase m;
           MultipartChunkSizeMb :=
             if MultipartChunkSizeMb m <=? 15 then 15 else MultipartChunkSizeMb m;
           GuessMimeType := GuessMimeType m;
           Encoding := if is_empty (Encoding m) then "UTF-8"%string else Encoding m;
           CheckSslCertificate := CheckSslCertificate m;
           CheckSslHostname := CheckSslHostname m; UseHTTPS := UseHTTPS m;
           SocketTimeout := SocketTimeout m;
           HumanReadableSizes := HumanReadableSizes m; PublicKey := PublicKey m |}.
Proof.
  intros Hc. destruct (LoadConfigFile_success_configured Load path c Hc) as [m Hm].
  exists m. split; [done|].
  rewrite (LoadConfigFile_configured Load path m Hm) in Hc.
  destruct (is_empty (AccessKey m)) eqn:Hk; [discriminate|].
  destruct (is_empty (AccessToken m)) eqn:Ht; [discriminate|].
  destruct (is_empty (HostBase m)) eqn:Hh; [discriminate|].
  apply is_empty_false in Hk, Ht, Hh. repeat (split; [done|]).
  simpl in Hc. injection Hc as <-.
  destruct m as [ak sk at_ hbu hba ch gm enc c1 c2 https st hr pk]; simpl.
  destruct https; simpl; destruct (is_empty enc); simpl;
    destruct (ch <=? 15); reflexivity.
Qed.

(** X5. The failures of [LoadConfigFile]: a file that does not load gives
    the error of [ini.Load] with an empty, non-nil configuration; a file that
    does not map gives the error of [MapTo]; a missing access key or access
    token gives the credentials error, whatever the host base; a missing
    host base alone gives the endpoint error. The configuration is never nil
    when the error is. *)
Theorem LoadConfigFile_errors :
  forall (Load : string -> ini.File + error) (path : string),
    (forall err, Load path = inr err ->
       LoadConfigFile Load path = (Some Config_zero, Some err)) /\
    (forall cfg c err, Load path = inl cfg ->
       ini.MapTo cfg (iniSection cfg) Config_zero = (c, Some err) ->
       LoadConfigFile Load path = (None, Some err)) /\
    (forall m, configured Load path = Some m ->
       AccessKey m = ""%string \/ AccessToken m = ""%string ->
       LoadConfigFile Load path
       = (None, Some "failed to find credentials in configuration file"%string)) /\
    (forall m, configured Load path = Some m ->
       AccessKey m <> ""%string -> AccessToken m <> ""%string ->
       HostBase m = ""%string ->
       LoadConfigFile Load path
       = (None, Some "failed to find endpoint in configuration file"%string)) /\
    (snd (LoadConfigFile Load path) = None ->
     fst (LoadConfigFile Load path) <> None).
Proof.
  intros Load path. split; [|split; [|split; [|split]]].
  - intros err H. unfold LoadConfigFile. by rewrite H.
  - intros cfg c err Hload Hmap. unfold LoadConfigFile. by rewrite Hload, Hmap.
  - intros m Hm Hcred. rewrite (LoadConfigFile_configured Load path m Hm).
    destruct Hcred as [H|H]; apply is_empty_true in H; rewrite H; [done|].
    by rewrite orb_true_r.
  - intros m Hm Hk Ht Hh. rewrite (LoadConfigFile_configured Load path m Hm).
    apply is_empty_false in Hk, Ht. apply is_empty_true in Hh.
    by rewrite Hk, Ht, Hh.
  - unfold LoadConfigFile. destruct (Load path) as [cfg|err]; [|done].
    destruct (ini.MapTo cfg (iniSection cfg) Config_zero) as [config [e|]]; [done|].
    destruct (is_empty (AccessKey config) || is_empty (AccessToken config)); [done|].
    destruct (is_empty (HostBase config)); done.
Qed.

Lemma LoadConfigFile_errors_witness :
  LoadConfigFile (fun _ => inl (ini.holding Config_zero)) "s3cmd.conf"
  = (None, Some "failed to find credentials in configuration file"%string).
Proof.
  destruct (LoadConfigFile_errors (fun _ => inl (ini.holding Config_zero)) "s3cmd.conf")
    as (_ & _ & Hcred & _).
  apply (Hcred Config_zero); [reflexivity|]. by left.
Defined.

(** X15. [LoadConfigFile] changes nothing but the endpoint, the encoding and
    the chunk size: every other field of a configuration returned with
    success is the file's, and the access key, the access token and the
    endpoint are not empty. *)
Theorem LoadConfigFile_frame :
  forall (Load : string -> ini.File + error) (path : string) (c m : Config),
    LoadConfigFile Load path = (Some c, None) ->
    configured Load path = Some m ->
    AccessKey c = AccessKey m /\ SecretKey c = SecretKey m /\
    AccessToken c = AccessToken m /\ HostBucket c = HostBucket m /\
    GuessMimeType c = GuessMimeType m /\
    CheckSslCertificate c = CheckSslCertificate m /\
    CheckSslHostname c = CheckSslHostname m /\ UseHTTPS c = UseHTTPS m /\
    SocketTimeout c = SocketTimeout m /\
    HumanReadableSizes c = HumanReadableSizes m /\ PublicKey c = PublicKey m /\
    AccessKey c <> ""%string /\ AccessToken c <> ""%string /\ HostBase c <> ""%string.
Proof.
  intros Load path c m Hc Hm.
  destruct (LoadConfigFile_success_shape Load path c Hc)
    as (m' & Hm' & Hk & Ht & Hh & ->).
  assert (m' = m) as -> by congruence. simpl.
  repeat (split; [done|]). by destruct (UseHTTPS m).
Qed.

Lemma LoadConfigFile_frame_witness :
  exists c,
    LoadConfigFile (fun _ => inl (ini.holding required_keys_only)) "s3cmd.conf"
      = (Some c, None) /\
    AccessKey c = "user"%string /\ AccessToken c = "token"%string.
Proof.
  eexists. split; [reflexivity|].
  destruct (LoadConfigFile_frame
              (fun _ => inl (ini.holding required_keys_only)) "s3cmd.conf" _
              required_keys_only eq_refl eq_refl) as (Hk & _ & Ht & _).
  split; [exact Hk|exact Ht].
Defined.

(** X16. [GetAuth] with a path reads that file and nothing else, also when
    it fails to load; without a path and without a session file it fails;
    and a configuration it returns with success has an access key, an
    access token, an endpoint and an encoding, and a chunk size of at
    least 15. *)
Theorem GetAuth_result :
  forall (os : filesystem.OS) (Load : string -> ini.File + error) (path : string),
    (path <> ""%string -> GetAuth os Load path = LoadConfigFile Load path) /\
    (path = ""%string -> FileExists os ".sda-cli-session" = false ->
     GetAuth os Load path
     = (None, Some "failed to read the configuration file"%string)) /\
    (forall c, GetAuth os Load path = (Some c, None) ->
       AccessKey c <> ""%string /\ AccessToken c <> ""%string /\
       HostBase c <> ""%string /\ Encoding c <> ""%string /\
       15 <= MultipartChunkSizeMb c).
Proof.
  intros os Load path. unfold GetAuth. split; [|split].
  - intros Hp. apply is_empty_false in Hp. by rewrite Hp.
  - intros -> Hex. simpl. by rewrite Hex.
  - assert (Hload : forall p c, LoadConfigFile Load p = (Some c, None) ->
               AccessKey c <> ""%string /\ AccessToken c <> ""%string /\
               HostBase c <> ""%string /\ Encoding c <> ""%string /\
               15 <= MultipartChunkSizeMb c).
    { intros p c Hc.
      destruct (LoadConfigFile_success_shape Load p c Hc)
        as (m & _ & Hk & Ht & Hh & ->). simpl.
      repeat (split; [done|]). split; [by destruct (UseHTTPS m)|]. split.
      - destruct (is_empty (Encoding m)) eqn:He; [done|]. by apply is_empty_false.
      - destruct (MultipartChunkSizeMb m <=? 15) eqn:Hle; [lia|].
        apply Z.leb_gt in Hle. lia. }
    intros c. destruct (negb (is_empty path)); [apply Hload|].
    destruct (FileExists os ".sda-cli-session"); [apply Hload|discriminate].
Qed.

Lemma GetAuth_result_witness :
  GetAuth (filesystem.of_nodes (fun p => p) (fun _ => None))
    (fun _ => inr "open s3cmd.conf: no such file or directory"%string) "s3cmd.conf"
  = LoadConfigFile (fun _ => inr "open s3cmd.conf: no such file or directory"%string)
      "s3cmd.conf".
Proof.
  apply (GetAuth_result (filesystem.of_nodes (fun p => p) (fun _ => None))
           (fun _ => inr "open s3cmd.conf: no such file or directory"%string)
           "s3cmd.conf").
  discriminate.
Defined.

(** X6. [ListFiles] makes one request to the store and returns its answer,
    the error wrapped: the request is signed with the access key as key id
    and as secret and with the access token as session token, and goes to
    the host base in region [us-west-2], with SSL off exactly when
    [UseHTTPS] is off. So the result depends on the access key, the access
    token, the host base and [UseHTTPS] of the configuration only; the
    secret key of the configuration is never sent. *)
Theorem ListFiles_depends_only_on :
  forall (Output : Type) (config : Config) (prefix : string),
    exists (session : aws.Config) (input : s3.ListObjectsV2Input),
      (forall ListObjectsV2 : aws.Config -> s3.ListObjectsV2Input -> Output + error,
         ListFiles ListObjectsV2 config prefix
         = match ListObjectsV2 session input with
           | inl result => (Some result, None)
           | inr err => (None, Some ("failed to list objects, reason: " +:+ err))
           end) /\
      aws.Creds session
        = {| aws.AccessKeyID := AccessKey config;
             aws.SecretAccessKey := AccessKey config;
             aws.SessionToken := AccessToken config |} /\
      aws.Region session = "us-west-2"%string /\
      aws.Endpoint session = HostBase config /\
      aws.DisableSSL session = negb (UseHTTPS config) /\
      (forall (config' : Config)
              (ListObjectsV2 : aws.Config -> s3.ListObjectsV2Input -> Output + error),
         AccessKey config' = AccessKey config ->
         AccessToken config' = AccessToken config ->
         HostBase config' = HostBase config ->
         UseHTTPS config' = UseHTTPS config ->
         ListFiles ListObjectsV2 config' prefix = ListFiles ListObjectsV2 config prefix).
Proof.
  intros Output config prefix.
  exists (ListFiles_session config), (ListFiles_input config prefix).
  split; [|repeat (split; [reflexivity|])].
  - intros svc. unfold ListFiles. by destruct (svc _ _).
  - intros config' svc Hk Ht Hh Hs.
    unfold ListFiles, ListFiles_session, ListFiles_input.
    by rewrite Hk, Ht, Hh, Hs.
Qed.

Lemma ListFiles_depends_only_on_witness :
  ListFiles (fun s i => inl [aws.SecretAccessKey (aws.Creds s); s3.Bucket i])
      {| AccessKey := "user"; SecretKey := "secret"; AccessToken := "token";
         HostBucket := "bucket"; HostBase := "s3.example.org";
         MultipartChunkSizeMb := 50; GuessMimeType := true; Encoding := "UTF-8";
         CheckSslCertificate := true; CheckSslHostname := true;
         UseHTTPS := true; SocketTimeout := 30; HumanReadableSizes := true;
         PublicKey := "key" |} "data"
  = ListFiles (fun s i => inl [aws.SecretAccessKey (aws.Creds s); s3.Bucket i])
      required_keys_only "data".
Proof.
  destruct (ListFiles_depends_only_on (list string) required_keys_only "data")
    as (session & input & _ & _ & _ & _ & _ & Hdep).
  apply Hdep; reflexivity.
Defined.

Lemma is_in_false s l : ~ In s l -> is_in s l = false.
Proof. unfold is_in. by destruct (In_dec string_dec s l). Qed.

(** X7. For a command that [main] does not know, it writes
    [Unknown command: ] with the command and ends with status 0. *)
Theorem main_unknown_command :
  forall (sub : Subcommands) (prog command arg : string) (args : list string),
    ~ In command known_words ->
    main sub prog (command :: arg :: args)
    = {| stderr := [Text ("Unknown command: " +:+ command)]; exit_status := 0 |}.
Proof.
  intros sub prog command arg args Hnew.
  assert (Hne : forall s, In s known_words -> String.eqb command s = false).
  { intros s Hs. apply String.eqb_neq. by intros ->. }
  assert (Hnin : forall l, incl l known_words -> is_in command l = false).
  { intros l Hl. apply is_in_false. intros Hin. by apply Hnew, Hl. }
  unfold main, ParseArgs.
  rewrite (Hnin ["version"; "-v"; "--version"]%string)
    by (intros s Hs; simpl in *; tauto).
  rewrite (Hnin ["-h"; "help"; "-help"; "--help"]%string)
    by (intros s Hs; simpl in *; tauto).
  rewrite (Hne "list"%string) by (simpl; tauto). cbv iota beta.
  rewrite (Hnin ["createkey"; "createKey"; "create-key"]%string)
    by (intros s Hs; simpl in *; tauto).
  rewrite !Hne by (simpl; tauto).
  reflexivity.
Qed.

Lemma main_unknown_command_witness :
  main (upload_returning None) "sda-cli" ["sync"; "dir"]%string
  = {| stderr := [Text "Unknown command: sync"]; exit_status := 0 |}.
Proof.
  apply (main_unknown_command (upload_returning None) "sda-cli" "sync" "dir" []).
  apply (bool_decide_unpack _). vm_compute. reflexivity.
Defined.

(** X8. The exit status of [main] tells whether the arguments were
    accepted, and nothing else: it is 1 when [ParseArgs] ends in the help
    text and 0 when a command was run, so it is the same whatever the
    sub-commands do, also when one returns an error. *)
Theorem main_exit_status :
  forall (sub sub' : Subcommands) (prog : string) (args : list string),
    exit_status (main sub prog args)
      = match ParseArgs prog args with
        | Help _ => 1
        | Command _ _ => 0
        end /\
    exit_status (main sub' prog args) = exit_status (main sub prog args).
Proof.
  assert (Hstatus : forall sub prog args,
             exit_status (main sub prog args)
             = match ParseArgs prog args with Help _ => 1 | Command _ _ => 0 end).
  { intros sub prog args. unfold main.
    destruct (ParseArgs prog args) as [c|c a]; [done|].
    repeat match goal with
           | |- context [if ?b then _ else _] => destruct b
           end;
      cbv beta iota zeta;
      first [ reflexivity
            | match goal with
              | |- context [match ?e with Some _ => _ | None => _ end] =>
                  by destruct e
              end ]. }
  intros sub sub' prog args. by rewrite !Hstatus.
Qed.

(** X19. What a sub-command receives from [ParseArgs]: for [version] (or
    [-v], [--version], given alone) the arguments as they are, and for every
    other command the program name followed by the arguments after the
    command word, of which there is at least one unless the command is
    [list]. A help word or a version word is never passed on as a command. *)
Theorem ParseArgs_command :
  forall (prog : string) (args : list string) (command : string)
         (os_Args : list string),
    ParseArgs prog args = Command command os_Args ->
    (command = "version"%string /\ os_Args = prog :: args /\
     exists word, args = [word] /\ In word ["version"; "-v"; "--version"]%string) \/
    (exists rest,
       args = command :: rest /\ os_Args = prog :: rest /\
       ~ In command ["version"; "-v"; "--version"; "-h"; "help"; "-help"; "--help"]%string /\
       (command = "list"%string \/ rest <> [])).
Proof.
  intros prog args command os_Args. unfold ParseArgs, is_in.
  destruct args as [|arg1 rest]; [discriminate|].
  destruct (In_dec string_dec arg1 ["version"; "-v"; "--version"]%string) as [Hv|Hv].
  { destruct rest; [|discriminate]. intros [= <- <-]. left.
    split; [done|]. split; [done|]. by exists arg1. }
  destruct (In_dec string_dec arg1 ["-h"; "help"; "-help"; "--help"]%string) as [Hh|Hh].
  { destruct rest; discriminate. }
  assert (Hnot : ~ In arg1
            ["version"; "-v"; "--version"; "-h"; "help"; "-help"; "--help"]%string).
  { simpl in *. tauto. }
  destruct (String.eqb arg1 "list") eqn:Hlist.
  { apply String.eqb_eq in Hlist. intros [= <- <-]. right.
    exists rest. repeat split; try done. by left. }
  destruct rest as [|a rest]; [discriminate|].
  intros [= <- <-]. right. exists (a :: rest). repeat split; try done. by right.
Qed.

Lemma ParseArgs_command_witness :
  exists rest,
    ["upload"; "-config"; "s3cmd.conf"; "file.c4gh"]%string = "upload"%string :: rest /\
    ["sda-cli"; "-config"; "s3cmd.conf"; "file.c4gh"]%string = "sda-cli"%string :: rest.
Proof.
  destruct (ParseArgs_command "sda-cli"
              ["upload"; "-config"; "s3cmd.conf"; "file.c4gh"]%string "upload"
              ["sda-cli"; "-config"; "s3cmd.conf"; "file.c4gh"]%string eq_refl)
    as [[Hv _]|(rest & Hargs & Hos & _)]; [discriminate|].
  by exists rest.
Defined.

(** X20. [main] runs every command that [Help] knows: for each key of the
    [Commands] map other than [version], given with arguments, [main]
    calls the sub-command of that name on the arguments without the command
    word and writes its error, if it returns one, and nothing else. It
    also runs [createkey] and [create-key], as [createKey], although the map
    does not hold them. *)
Theorem Commands_dispatched :
  forall (sub : Subcommands) (prog arg : string) (args : list string),
    main sub prog ("encrypt"%string :: arg :: args)
      = reported (encrypt_Encrypt sub (prog :: arg :: args)) /\
    main sub prog ("createKey"%string :: arg :: args)
      = reported (createKey_CreateKey sub (prog :: arg :: args)) /\
    main sub prog ("decrypt"%string :: arg :: args)
      = reported (decrypt_Decrypt sub (prog :: arg :: args)) /\
    main sub prog ("download"%string :: arg :: args)
      = reported (download_Download sub (prog :: arg :: args)) /\
    main sub prog ("upload"%string :: arg :: args)
      = reported (upload_Upload sub (prog :: arg :: args)) /\
    main sub prog ("datasetsize"%string :: arg :: args)
      = reported (datasetsize_DatasetSize sub (prog :: arg :: args)) /\
    main sub prog ("list"%string :: arg :: args)
      = reported (list_List sub (prog :: arg :: args)) /\
    main sub prog ("login"%string :: arg :: args)
      = reported (login_NewLogin sub (prog :: arg :: args)) /\
    (forall command, In command Commands -> command <> "version"%string ->
       In command ["encrypt"; "createKey"; "decrypt"; "download"; "upload";
                   "datasetsize"; "list"; "login"]%string) /\
    main sub prog ("createkey"%string :: arg :: args)
      = reported (createKey_CreateKey sub (prog :: arg :: args)) /\
    main sub prog ("create-key"%string :: arg :: args)
      = reported (createKey_CreateKey sub (prog :: arg :: args)) /\
    isLegal "createkey" = false /\ isLegal "create-key" = false.
Proof.
  intros sub prog arg args.
  repeat match goal with
         | |- main _ _ _ = reported ?e /\ _ =>
             split; [unfold main, reported; simpl; by destruct e|]
         end.
  split.
  { intros command Hin Hv. unfold Commands in Hin. simpl in Hin.
    repeat (destruct Hin as [<-|Hin]; [first [done | simpl; tauto]|]). done. }
  repeat match goal with
         | |- main _ _ _ = reported ?e /\ _ =>
             split; [unfold main, reported; simpl; by destruct e|]
         end.
  by split.
Qed.

Lemma Commands_dispatched_witness :
  main (upload_returning (Some "no such file"%string)) "sda-cli"
    ["upload"; "file.c4gh"]%string
  = {| stderr := [Text ("Error: no such file" +:+ String "010" "")];
       exit_status := 0 |} /\
  main (upload_returning None) "sda-cli" ["create-key"; "name"]%string
  = {| stderr := [Text ("Error: createKey" +:+ String "010" "")];
       exit_status := 0 |}.
Proof.
  destruct (Commands_dispatched (upload_returning (Some "no such file"%string))
              "sda-cli" "file.c4gh" []) as (_ & _ & _ & _ & Hupload & _).
  destruct (Commands_dispatched (upload_returning None) "sda-cli" "name" [])
    as (_ & _ & _ & _ & _ & _ & _ & _ & _ & _ & Hcreate & _).
  split; [exact Hupload|exact Hcreate].
Defined.

(** ** Usage texts *)
Module gostringsFacts.
Import gostrings.

Lemma prefix_nil s : String.prefix "" s = true.
Proof. by destruct s. Qed.

Lemma Contains_newline_cons a s :
  Contains (String a s) (String newline "")
  = Ascii.eqb a newline || Contains s (String newline "").
Proof.
  cbn [Contains]. f_equal. cbn [String.prefix]. rewrite prefix_nil.
  destruct (Ascii.eqb a newline) eqn:Ha.
  - apply Ascii.eqb_eq in Ha. by destruct (Ascii.ascii_dec newline a).
  - apply Ascii.eqb_neq in Ha. by destruct (Ascii.ascii_dec newline a).
Qed.

Lemma Split_nonempty s sep : Split s sep <> [].
Proof.
  destruct s as [|a s]; simpl; [done|].
  destruct (Ascii.eqb a sep); [done|]. by destruct (Split s sep).
Qed.

Lemma Split_one_line l : one_line l -> Split l newline = [l].
Proof.
  unfold one_line. induction l as [|a l IH]; [done|].
  rewrite Contains_newline_cons. intros [Ha Hl]%orb_false_elim.
  cbn [Split]. rewrite Ha, (IH Hl). done.
Qed.

Lemma Split_line_break l rest :
  one_line l ->
  Split (l +:+ String newline rest) newline = l :: Split rest newline.
Proof.
  unfold one_line. induction l as [|a l IH].
  - intros _. reflexivity.
  - rewrite Contains_newline_cons. intros [Ha Hl]%orb_false_elim.
    change (String a l +:+ String newline rest)
      with (String a (l +:+ String newline rest)).
    cbn [Split]. rewrite Ha. by rewrite (IH Hl).
Qed.

(** Splitting what [Join] made of lines gives the lines back. *)
Lemma Split_Join l ls :
  Forall one_line (l :: ls) ->
  Split (Join (l :: ls) (String newline "")) newline = l :: ls.
Proof.
  revert l. induction ls as [|l' ls IH]; intros l Hall.
  - apply Forall_cons in Hall as [Hl _]. simpl. by apply Split_one_line.
  - apply Forall_cons in Hall as [Hl Hall].
    change (Join (l :: l' :: ls) (String newline ""))
      with (l +:+ String newline (Join (l' :: ls) (String newline ""))).
    rewrite Split_line_break by done. by rewrite IH.
Qed.

(** The first line of a text starts with a one-line prefix when the text
    does. *)
Lemma HasPrefix_first_line p t :
  one_line p ->
  HasPrefix (nth 0 (Split t newline) ""%string) p = HasPrefix t p.
Proof.
  unfold HasPrefix, one_line. revert t. induction p as [|b p IH]; intros t Hp.
  - by rewrite !prefix_nil.
  - rewrite Contains_newline_cons in Hp. apply orb_false_elim in Hp as [Hb Hp].
    destruct t as [|a t]; [done|].
    simpl Split. destruct (Ascii.eqb a newline) eqn:Ha.
    + apply Ascii.eqb_eq in Ha as ->. simpl.
      destruct (Ascii.ascii_dec b newline) as [->|Hne]; [|done].
      by rewrite Ascii.eqb_refl in Hb.
    + pose proof (Split_nonempty t newline) as Hne.
      specialize (IH t Hp).
      destruct (Split t newline) as [|l ls]; [done|]. simpl in *.
      destruct (Ascii.ascii_dec b a); [done|done].
Qed.



End gostringsFacts.

(** X9. A usage text that holds a format verb and, once the program name is
    put in and the white space around it trimmed, consists of a [USAGE:]
    line, a second line and further lines comes back rearranged: a line
    break, the further lines as they are, an empty line, the [USAGE:] line
    indented by four spaces, and an empty line. The second line is left
    out. *)
Theorem FormatSubcommandUsage_layout :
  forall (Sprintf : string -> string -> string) (TrimSpace : string -> string)
         (arg0 usageString usage second : string) (rest : list string),
    gostrings.Contains usageString "%s" || gostrings.Contains usageString "%v" = true ->
    TrimSpace (Sprintf usageString arg0)
      = gostrings.Join (usage :: second :: rest) (String gostrings.newline "") ->
    Forall one_line (usage :: second :: rest) ->
    gostrings.HasPrefix usage "USAGE:" = true ->
    FormatSubcommandUsage Sprintf TrimSpace arg0 usageString
    = String gostrings.newline (gostrings.Join rest (String gostrings.newline ""))
      +:+ String gostrings.newline (String gostrings.newline "    ")
      +:+ usage
      +:+ String gostrings.newline (String gostrings.newline "").
Proof.
  intros Sprintf TrimSpace arg0 u usage second rest Hverb Htrim Hlines Husage.
  unfold FormatSubcommandUsage.
  apply orb_true_iff in Hverb.
  assert (negb (gostrings.Contains u "%s") && negb (gostrings.Contains u "%v") = false)
    as ->.
  { destruct Hverb as [-> | ->]; [done|]. apply andb_false_r. }
  cbv zeta. rewrite Htrim, (gostringsFacts.Split_Join _ _ Hlines).
  cbn [nth drop]. rewrite Husage.
  replace (len (usage :: second :: rest) <? 2) with false; [done|].
  symmetry. apply Z.ltb_ge. unfold len. simpl length. lia.
Qed.

Lemma FormatSubcommandUsage_layout_witness :
  FormatSubcommandUsage example_Sprintf (fun s => s) "sda-cli" example_usage
  = String gostrings.newline "module: this module does all the fancies stuff"
    +:+ String gostrings.newline (String gostrings.newline "    ")
    +:+ "USAGE: sda-cli module <args>"
    +:+ String gostrings.newline (String gostrings.newline "").
Proof.
  apply (FormatSubcommandUsage_layout example_Sprintf (fun s => s) "sda-cli"
           example_usage "USAGE: sda-cli module <args>" ""
           ["module: this module does all the fancies stuff"%string]).
  - reflexivity.
  - reflexivity.
  - repeat constructor.
  - reflexivity.
Defined.

(** X10. A usage text without [%s] and [%v] comes back as it is; one with a
    verb whose formatted and trimmed text is a single line, or does not
    start with [USAGE:], comes back formatted and otherwise unchanged. *)
Theorem FormatSubcommandUsage_as_is :
  forall (Sprintf : string -> string -> string) (TrimSpace : string -> string)
         (arg0 usageString : string),
    (gostrings.Contains usageString "%s" = false ->
     gostrings.Contains usageString "%v" = false ->
     FormatSubcommandUsage Sprintf TrimSpace arg0 usageString = usageString) /\
    (gostrings.Contains usageString "%s" || gostrings.Contains usageString "%v" = true ->
     one_line (TrimSpace (Sprintf usageString arg0)) \/
     gostrings.HasPrefix (TrimSpace (Sprintf usageString arg0)) "USAGE:" = false ->
     FormatSubcommandUsage Sprintf TrimSpace arg0 usageString
     = Sprintf usageString arg0).
Proof.
  intros Sprintf TrimSpace arg0 u. unfold FormatSubcommandUsage. split.
  - by intros -> ->.
  - intros Hverb Hshape. apply orb_true_iff in Hverb.
    assert (negb (gostrings.Contains u "%s") && negb (gostrings.Contains u "%v") = false)
      as ->.
    { destruct Hverb as [-> | ->]; [done|]. apply andb_false_r. }
    cbv zeta. destruct Hshape as [Hone|Hprefix].
    + by rewrite (gostringsFacts.Split_one_line _ Hone).
    + rewrite gostringsFacts.HasPrefix_first_line by done.
      rewrite Hprefix. simpl. by rewrite orb_true_r.
Qed.

Lemma FormatSubcommandUsage_as_is_witness :
  FormatSubcommandUsage example_Sprintf (fun s => s) "sda-cli" "USAGE: do that stuff"
  = "USAGE: do that stuff"%string /\
  FormatSubcommandUsage (fun _ a => "run with: " +:+ a +:+ " module") (fun s => s)
    "sda-cli" "run with: %s module"
  = "run with: sda-cli module"%string.
Proof.
  split.
  - apply (FormatSubcommandUsage_as_is example_Sprintf (fun s => s) "sda-cli"
             "USAGE: do that stuff"); reflexivity.
  - apply (FormatSubcommandUsage_as_is
             (fun _ a => "run with: " +:+ a +:+ " module") (fun s => s)
             "sda-cli" "run with: %s module"); [reflexivity|].
    left. reflexivity.
Defined.

(** ** Files *)

(** X17. A file that [FileIsReadable] accepts exists for [FileExists]; and
    on a file system of directories and regular files [FileIsReadable]
    accepts exactly the regular files that can be opened and hold at least
    one byte: a directory, a missing file, a file without read permission
    and an empty file are all not readable. *)
Theorem FileIsReadable_exactly :
  forall (os : filesystem.OS) (clean : string -> string)
         (nodes : string -> option filesystem.node) (filename : string),
    (FileIsReadable os filename = true -> FileExists os filename = true) /\
    (FileIsReadable (filesystem.of_nodes clean nodes) filename = true <->
     (exists data may_read, nodes filename = Some (filesystem.Regular data may_read)) /\
     (exists b data,
        nodes (clean filename) = Some (filesystem.Regular (b :: data) true))).
Proof.
  intros os clean nodes filename. split.
  - unfold FileIsReadable, FileExists.
    by destruct (filesystem.Stat os filename).
  - unfold FileIsReadable, filesystem.of_nodes. cbn [filesystem.Stat filesystem.Open filesystem.Clean].
    destruct (nodes filename) as [[|data may_read]|] eqn:Hstat.
    + cbn. split; [done|]. by intros [(? & ? & ?) _].
    + cbn [filesystem.IsDir].
      destruct (nodes (clean filename)) as [[|[|b data'] [|]]|] eqn:Hopen; cbn.
      * split; [done|]. by intros [_ (? & ? & ?)].
      * split; [done|]. by intros [_ (? & ? & ?)].
      * split; [done|]. by intros [_ (? & ? & ?)].
      * split; [|done]. intros _. split; by eexists _, _.
      * split; [done|]. by intros [_ (? & ? & ?)].
      * split; [done|]. by intros [_ (? & ? & ?)].
    + cbn. split; [done|]. by intros [(? & ? & ?) _].
Qed.

Lemma FileIsReadable_exactly_witness :
  FileExists
    (filesystem.of_nodes (fun p => p)
       (fun p => if String.eqb p "testfile"
                 then Some (filesystem.Regular [Byte.x63] true)
                 else None)) "testfile" = true.
Proof.
  apply (FileIsReadable_exactly
           (filesystem.of_nodes (fun p => p)
              (fun p => if String.eqb p "testfile"
                        then Some (filesystem.Regular [Byte.x63] true)
                        else None))
           (fun p => p) (fun _ => None) "testfile").
  reflexivity.
Defined.

(** X18. [ParseS3ErrorResponse] returns a message exactly when the body was
    read, contains the text [xml version] and unmarshals, and the message
    then lists the three fields; otherwise it returns an error with an empty
    message. A body without [xml version] is refused whatever the
    unmarshaller would make of it. *)
Theorem ParseS3ErrorResponse_result :
  forall (Unmarshal Unmarshal' : string -> XMLerrorResponse + error)
         (respBody : string + error),
    (snd (ParseS3ErrorResponse Unmarshal respBody) = None <->
     exists respMsg x,
       respBody = inl respMsg /\
       gostrings.Contains respMsg "xml version" = true /\
       Unmarshal respMsg = inl x /\
       fst (ParseS3ErrorResponse Unmarshal respBody) = format_XMLerrorResponse x) /\
    (snd (ParseS3ErrorResponse Unmarshal respBody) <> None ->
     fst (ParseS3ErrorResponse Unmarshal respBody) = ""%string) /\
    (forall respMsg,
       respBody = inl respMsg ->
       gostrings.Contains respMsg "xml version" = false ->
       ParseS3ErrorResponse Unmarshal' respBody
       = (""%string, Some "cannot parse response body, reason: not xml"%string)).
Proof.
  intros U U' body. unfold ParseS3ErrorResponse.
  destruct body as [msg|err].
  - destruct (gostrings.Contains msg "xml version") eqn:Hxml; simpl.
    + destruct (U msg) as [x|e] eqn:HU; simpl.
      * split; [|split].
        -- split; [|done]. intros _. by exists msg, x.
        -- intros H. by destruct H.
        -- intros m [= <-] Hc. congruence.
      * split; [|split].
        -- split; [done|]. intros (m & x & [= <-] & _ & HU' & _). congruence.
        -- done.
        -- intros m [= <-] Hc. congruence.
    + split; [|split].
      * split; [done|]. intros (m & x & [= <-] & Hc & _). congruence.
      * done.
      * by intros m [= <-] _.
  - simpl. split; [|split].
    + split; [done|]. by intros (m & x & [=] & _).
    + done.
    + by intros m [=].
Qed.

Lemma ParseS3ErrorResponse_result_witness :
  ParseS3ErrorResponse (fun _ => inl {| Code := ""; Message := ""; Resource := "" |})
    (inl "Bad Gateway"%string)
  = (""%string, Some "cannot parse response body, reason: not xml"%string).
Proof.
  destruct (ParseS3ErrorResponse_result
              (fun _ => inr "EOF"%string)
              (fun _ => inl {| Code := ""; Message := ""; Resource := "" |})
              (inl "Bad Gateway"%string)) as (_ & _ & Hnotxml).
  apply (Hnotxml "Bad Gateway"%string); reflexivity.
Defined.

(** ** The public key of the session *)

Lemma length_copy32 b : length (copy32 b) = 32%nat.
Proof. unfold copy32. rewrite length_app, length_replicate, length_take. lia. Qed.

Lemma copy32_exact b : length b = 32%nat -> copy32 b = b.
Proof.
  intros Hb. unfold copy32. rewrite take_ge by lia. rewrite Hb. simpl.
  apply app_nil_r.
Qed.

Lemma LoadConfigFile_never_nil_nil Load path :
  LoadConfigFile Load path <> (None, None).
Proof.
  unfold LoadConfigFile. destruct (Load path) as [cfg|err]; [|done].
  destruct (ini.MapTo cfg (iniSection cfg) Config_zero) as [config [e|]]; [done|].
  destruct (is_empty (AccessKey config) || is_empty (AccessToken config)); [done|].
  destruct (is_empty (HostBase config)); done.
Qed.

(** X21. Whenever [GetPublicKey] writes a key it writes 32 bytes: the public
    key of the session file cut after 32 bytes or filled up with zero bytes,
    and the key itself when it has 32 bytes; no key of another length is
    refused. It returns the name of the key file only after writing the key,
    an empty name with every error, and it touches nothing when there is no
    session file. *)
Theorem GetPublicKey_writes_32_bytes :
  forall (os : filesystem.OS) (Load : string -> ini.File + error)
         (OpenFile : string -> option error)
         (WriteKey : string -> list Byte.byte -> option error),
    (forall name data,
       In (WriteCrypt4GHX25519PublicKey name data)
          (snd (GetPublicKey os Load OpenFile WriteKey)) ->
       length data = 32%nat /\
       exists c,
         LoadConfigFile Load ".sda-cli-session" = (Some c, None) /\
         PublicKey c <> ""%string /\
         data = copy32 (list_byte_of_string (PublicKey c)) /\
         (length (list_byte_of_string (PublicKey c)) = 32%nat ->
          data = list_byte_of_string (PublicKey c))) /\
    (snd (fst (GetPublicKey os Load OpenFile WriteKey)) = None ->
     fst (fst (GetPublicKey os Load OpenFile WriteKey)) = "key-from-oidc.pub.pem"%string /\
     exists name data,
       In (WriteCrypt4GHX25519PublicKey name data)
          (snd (GetPublicKey os Load OpenFile WriteKey))) /\
    (snd (fst (GetPublicKey os Load OpenFile WriteKey)) <> None ->
     fst (fst (GetPublicKey os Load OpenFile WriteKey)) = ""%string) /\
    (FileExists os ".sda-cli-session" = false ->
     GetPublicKey os Load OpenFile WriteKey
     = (""%string, Some "configuration file (.sda-cli-session) not found"%string, [])).
Proof.
  intros os Load OpenFile WriteKey. unfold GetPublicKey.
  destruct (FileExists os ".sda-cli-session"); cbn [negb];
    [|by repeat split; try done; intros ? ? []].
  set (e1 := match filesystem.Open os ".sda-cli-session" with
             | inl _ => []
             | inr _ => [Println "could not read file: <nil>"]
             end).
  assert (He1 : forall name data, ~ In (WriteCrypt4GHX25519PublicKey name data) e1).
  { intros name data. unfold e1.
    destruct (filesystem.Open os ".sda-cli-session"); simpl; [tauto|].
    intros [?|[]]. discriminate. }
  pose proof (LoadConfigFile_never_nil_nil Load ".sda-cli-session") as Hnn.
  destruct (LoadConfigFile Load ".sda-cli-session") as [[c|] [e|]] eqn:Hload;
    cbn [fst snd]; try done.
  - split; [|by repeat split]. intros name data Hin. by apply He1 in Hin.
  - destruct (is_empty (PublicKey c)) eqn:Hpk; cbn [fst snd].
    { split; [|by repeat split]. intros name data Hin. by apply He1 in Hin. }
    apply is_empty_false in Hpk.
    destruct (OpenFile (filesystem.Clean os "key-from-oidc.pub.pem")) as [e|];
      cbn [fst snd].
    { split; [|by repeat split].
      intros name data [Hin|[Hin|[]]]%in_app_or; [by apply He1 in Hin|discriminate]. }
    assert (Hdata : forall name data,
               In (WriteCrypt4GHX25519PublicKey name data)
                  ((e1 ++ [OpenFile_WRONLY_CREATE
                             (filesystem.Clean os "key-from-oidc.pub.pem")])
                   ++ [WriteCrypt4GHX25519PublicKey
                         (filesystem.Clean os "key-from-oidc.pub.pem")
                         (copy32 (list_byte_of_string (PublicKey c)))]) ->
               length data = 32%nat /\
               exists c0,
                 (Some c, @None error) = (Some c0, None) /\
                 PublicKey c0 <> ""%string /\
                 data = copy32 (list_byte_of_string (PublicKey c0)) /\
                 (length (list_byte_of_string (PublicKey c0)) = 32%nat ->
                  data = list_byte_of_string (PublicKey c0))).
    { intros name data [[Hin|[Hin|[]]]%in_app_or|[Hin|[]]]%in_app_or;
        [by apply He1 in Hin|discriminate|].
      injection Hin as <- <-. split; [apply length_copy32|].
      exists c. repeat split; try done. intros Hlen. by apply copy32_exact. }
    destruct (WriteKey _ _) as [e|]; cbn [fst snd].
    + split; [exact Hdata|]. by repeat split.
    + split; [exact Hdata|]. split; [|by repeat split].
      intros _. split; [done|]. eexists _, _. apply in_or_app. right. by left.
  - split; [|by repeat split]. intros name data Hin. by apply He1 in Hin.
Qed.

Lemma GetPublicKey_writes_32_bytes_witness :
  length (copy32 (list_byte_of_string "key")) = 32%nat /\
  GetPublicKey session_os (fun _ => inl (ini.holding session_config))
    (fun _ => None) (fun _ _ => None)
  = ("key-from-oidc.pub.pem"%string, None,
     [OpenFile_WRONLY_CREATE "key-from-oidc.pub.pem";
      WriteCrypt4GHX25519PublicKey "key-from-oidc.pub.pem"
        ([Byte.x6b; Byte.x65; Byte.x79] ++ replicate 29 Byte.x00)]).
Proof.
  destruct (GetPublicKey_writes_32_bytes session_os
              (fun _ => inl (ini.holding session_config))
              (fun _ => None) (fun _ _ => None)) as (Hdata & _).
  split; [|reflexivity].
  apply (Hdata "key-from-oidc.pub.pem"%string (copy32 (list_byte_of_string "key"))).
  right. left. reflexivity.
Defined.

(** ** The request of [ListFiles] *)


